(** * SBIR scraper: harvest and synchronisation engine

    A shallow embedding of [config/config.py], [src/database.py],
    [src/initial_download.py] and [src/update_checker.py], and the
    properties of the storage gateway, the paginated fetcher, the
    validator, the full-harvest controller and the incremental sync
    controller.

    Conventions.
    - An award is a Python [dict] from field names to JSON values: a
      [gmap string value].
    - The SQLite store is explicit state: a list of rows in rowid order and
      a metadata map.  Every gateway call commits, so a call maps a store
      to a store; a call that raises leaves the store as it was (the
      uncommitted transaction is dropped when the connection closes).
    - Exceptions are values of [result]; a [try]/[except] is a [match].
    - The network, the interrupt flag and the clock are inputs (oracles)
      of the controllers.  The gateway operations take the storage fault
      they meet, if any; the controllers run on a working connection,
      except for the faults that are inputs of an update check: a failed
      write of its metadata and a failed export.
    - A Python [str] is a [string] of code points below 256; what the
      code does with other characters is outside the model.
    - A finite Python float is kept as the decimal it was read from.  The
      decimal stands for the binary64 nearest to it: reading a string
      yields an infinity or a zero where binary64 overflows or
      underflows, and [int] cuts the binary64.  The sign of a zero is not
      kept.
    - The versions are Python 3.11 ([int] refuses a string of more than
      4300 digits) and requests 2.27 or later ([response.json()] raises
      [requests.exceptions.JSONDecodeError], a [RequestException]). *)

From Stdlib Require Import ZArith QArith Ascii String List Lia DecimalString.
From stdpp Require Import base option list sorting gmap strings.

#[local] Open Scope string_scope.
#[local] Open Scope list_scope.
#[local] Open Scope Z_scope.

(** ** Python values *)

Module Py.

(** A Python [float]: the decimal [m * 10^e] it was written as, an
    infinity, or NaN.  [json.loads] and [float] deliver a finite float
    only for a decimal within the range of binary64 ([round_float]). *)
Inductive pyfloat :=
| FFinite (m e : Z)
| FInf (negative : bool)
| FNaN.

(** A JSON value as [json.loads] delivers it.  Arrays and objects are
    opaque: the code looks only at their truthiness, and neither [str],
    [int] nor a SQLite binding accepts them. *)
Inductive value :=
| VNone
| VBool (b : bool)
| VInt (z : Z)
| VFloat (f : pyfloat)
| VStr (s : string)
| VContainer (nonempty : bool).

#[global] Instance pyfloat_eq_dec : EqDecision pyfloat.
Proof. solve_decision. Defined.

#[global] Instance value_eq_dec : EqDecision value.
Proof. solve_decision. Defined.

(** [bool(v)]: [None], [False], zero, the empty string and empty
    containers are falsy. *)
Definition truthy (v : value) : bool :=
  match v with
  | VNone => false
  | VBool b => b
  | VInt z => negb (z =? 0)
  | VFloat (FFinite m _) => negb (m =? 0)
  | VFloat _ => true
  | VStr s => negb (String.eqb s "")
  | VContainer ne => ne
  end.


(** *** Characters *)

Definition is_digit (c : ascii) : bool :=
  let n := nat_of_ascii c in (48 <=? n)%nat && (n <=? 57)%nat.

Definition digit_val (c : ascii) : Z := Z.of_nat (nat_of_ascii c) - 48.

(** The white space [float] and [int] strip from the ends of a string:
    space, TAB, LF, VT, FF and CR, and the two code points above 127 that
    count as white space, NEL (133) and the no-break space (160), which
    are read as a space.  The separators FS, GS, RS and US (28 to 31) are
    white space for [str.isspace] but are not stripped here. *)
Definition is_space (c : ascii) : bool :=
  let n := nat_of_ascii c in
  (n =? 32)%nat || ((9 <=? n)%nat && (n <=? 13)%nat)
  || (n =? 133)%nat || (n =? 160)%nat.

Definition lower (c : ascii) : ascii :=
  let n := nat_of_ascii c in
  if (65 <=? n)%nat && (n <=? 90)%nat then ascii_of_nat (n + 32) else c.

Fixpoint lstrip (l : list ascii) : list ascii :=
  match l with
  | c :: l' => if is_space c then lstrip l' else l
  | [] => []
  end.

Definition strip (l : list ascii) : list ascii :=
  rev (lstrip (rev (lstrip l))).

(** [s.replace(',', '')] *)
Fixpoint remove_commas (s : string) : string :=
  match s with
  | EmptyString => EmptyString
  | String c s' =>
      if Ascii.eqb c "," then remove_commas s' else String c (remove_commas s')
  end.

(** *** Numeric literals *)

(** Underscores in a numeric literal: one at a time, and only between two
    digits.  [prev] is the character before the current one. *)
Fixpoint drop_underscores (prev : option ascii) (l : list ascii)
  : option (list ascii) :=
  match l with
  | [] =>
      match prev with
      | Some p => if Ascii.eqb p "_" then None else Some []
      | None => Some []
      end
  | c :: l' =>
      if Ascii.eqb c "_" then
        match prev with
        | Some p => if is_digit p then drop_underscores (Some c) l' else None
        | None => None
        end
      else
        let after_underscore :=
          match prev with Some p => Ascii.eqb p "_" | None => false end in
        if after_underscore && negb (is_digit c) then None
        else option_map (cons c) (drop_underscores (Some c) l')
  end.

(** The longest prefix of digits and the rest. *)
Fixpoint span_digits (l : list ascii) : list ascii * list ascii :=
  match l with
  | c :: l' =>
      if is_digit c then let '(d, r) := span_digits l' in (c :: d, r)
      else ([], l)
  | [] => ([], [])
  end.

Definition digits_val (d : list ascii) : Z :=
  fold_left (fun acc c => 10 * acc + digit_val c) d 0.

(** An optional sign; [true] is minus. *)
Definition take_sign (l : list ascii) : bool * list ascii :=
  match l with
  | c :: l' =>
      if Ascii.eqb c "-" then (true, l')
      else if Ascii.eqb c "+" then (false, l')
      else (false, l)
  | [] => (false, [])
  end.

Definition signed (neg : bool) (z : Z) : Z := if neg then - z else z.

(** The exponent part: nothing, or [e] or [E], an optional sign and at
    least one digit, up to the end of the literal. *)
Definition parse_exponent (l : list ascii) : option Z :=
  match l with
  | [] => Some 0
  | c :: l' =>
      if Ascii.eqb (lower c) "e" then
        let '(neg, l1) := take_sign l' in
        let '(d, r) := span_digits l1 in
        match d, r with
        | _ :: _, [] => Some (signed neg (digits_val d))
        | _, _ => None
        end
      else None
  end.

(** Rounding a decimal to binary64, at the two ends of the range.  From
    [2^1024 - 2^970] on, half way between the largest finite float and
    [2^1024], the result is an infinity; up to [2^-1075], half of the
    least positive float, it is zero (ties go to the even neighbour in
    both cases). *)
Definition overflows (m e : Z) : bool :=
  if 0 <=? e then 2 ^ 1024 - 2 ^ 970 <=? Z.abs m * 10 ^ e
  else (2 ^ 1024 - 2 ^ 970) * 10 ^ (- e) <=? Z.abs m.

Definition underflows (m e : Z) : bool :=
  if 0 <=? e then m =? 0
  else Z.abs m * 2 ^ 1075 <=? 10 ^ (- e).

Definition round_float (m e : Z) : pyfloat :=
  if overflows m e then FInf (m <? 0)
  else if underflows m e then FFinite 0 0
  else FFinite m e.

(** [a / b] rounded to the nearest integer, ties to the even one, for
    [0 <= a] and [0 < b]. *)
Definition div_half_even (a b : Z) : Z :=
  let q := a / b in
  let r := a mod b in
  if (b <? 2 * r) || ((b =? 2 * r) && Z.odd q) then q + 1 else q.

(** The binary64 nearest to the decimal [n * 10^e], for [0 < n] and a
    decimal within the range: [(b, k)] is the float [b * 2^k], with [b] of
    53 bits and [k] not below -1074, the exponent of the least float.
    [l] is the integer part of the binary logarithm of the decimal. *)
Definition nearest_binary64 (n e : Z) : Z * Z :=
  let num := if 0 <=? e then n * 10 ^ e else n in
  let den := if 0 <=? e then 1 else 10 ^ (- e) in
  let t := Z.log2 num - Z.log2 den in
  let at_least_pow2 :=
    if 0 <=? t then den * 2 ^ t <=? num else den <=? num * 2 ^ (- t) in
  let l := if at_least_pow2 then t else t - 1 in
  let k := Z.max (l - 52) (- 1074) in
  let b :=
    if 0 <=? k then div_half_even num (den * 2 ^ k)
    else div_half_even (num * 2 ^ (- k)) den in
  (b, k).

(** [sys.int_max_str_digits]: the longest run of digits [int] converts
    from a string and [str] renders. *)
Definition int_max_str_digits : nat := 4300.

(** [float(s)] for a string: white space is stripped, then an optional
    sign and [inf], [infinity], [nan] (any case) or a decimal literal with
    at least one digit in its integer or fractional part.  [None] is
    [ValueError]. *)
Definition float_of_string (s : string) : option pyfloat :=
  match drop_underscores None (strip (list_ascii_of_string s)) with
  | None => None
  | Some l =>
      let '(neg, l1) := take_sign l in
      let word := string_of_list_ascii (map lower l1) in
      if String.eqb word "inf" || String.eqb word "infinity" then Some (FInf neg)
      else if String.eqb word "nan" then Some FNaN
      else
        let '(ip, r1) := span_digits l1 in
        let '(fp, r2) :=
          match r1 with
          | c :: r' => if Ascii.eqb c "." then span_digits r' else ([], r1)
          | [] => ([], [])
          end in
        match ip ++ fp with
        | [] => None
        | ds =>
            match parse_exponent r2 with
            | Some ex =>
                Some (round_float (signed neg (digits_val ds))
                                  (ex - Z.of_nat (length fp)))
            | None => None
            end
        end
  end.

(** [int(s)] for a string, base ten: white space is stripped, then an
    optional sign and at least one digit, and no more digits than
    [int_max_str_digits].  [None] is [ValueError]. *)
Definition int_of_string (s : string) : option Z :=
  match drop_underscores None (strip (list_ascii_of_string s)) with
  | None => None
  | Some l =>
      let '(neg, l1) := take_sign l in
      let '(d, r) := span_digits l1 in
      match d, r with
      | _ :: _, [] =>
          if (int_max_str_digits <? length d)%nat then None
          else Some (signed neg (digits_val d))
      | _, _ => None
      end
  end.

End Py.

Import Py.

(** ** Exceptions *)

(** The subclasses of [sqlite3.Error] the engine raises. *)
Inductive sqlite_error :=
| OperationalError
| IntegrityError
| ProgrammingError
| InterfaceError.

(** [RequestException] stands for an exception of that class that is no
    JSON error: a connection error, a timeout, the [HTTPError] of
    [raise_for_status].  [RequestsJSONDecodeError] is
    [requests.exceptions.JSONDecodeError], which [response.json()] raises
    for a body that is not JSON: it is both a [RequestException] and a
    [json.JSONDecodeError].  [JSONDecodeError] is a [json.JSONDecodeError]
    of the [json] module itself. *)
Inductive exn :=
| SqliteError (e : sqlite_error)
| OverflowError
| TypeError
| RequestException
| RequestsJSONDecodeError
| JSONDecodeError.

(** [isinstance(e, requests.exceptions.RequestException)] and
    [isinstance(e, json.JSONDecodeError)]. *)
Definition is_RequestException (e : exn) : bool :=
  match e with
  | RequestException | RequestsJSONDecodeError => true
  | _ => false
  end.

Definition is_JSONDecodeError (e : exn) : bool :=
  match e with
  | RequestsJSONDecodeError | JSONDecodeError => true
  | _ => false
  end.

Inductive result (A : Type) :=
| Ok (a : A)
| Raise (e : exn).
Arguments Ok {A} a.
Arguments Raise {A} e.

#[global] Instance result_ret : MRet result := fun A a => Ok a.
#[global] Instance result_bind : MBind result := fun A B f r =>
  match r with
  | Ok a => f a
  | Raise e => Raise e
  end.

Definition raised {A} (r : result A) : Prop :=
  match r with Ok _ => False | Raise _ => True end.

(** ** Configuration ([config/config.py]) *)

Module Config.

Definition MAX_RETRIES : nat := 3.
Definition RETRY_DELAY : Z := 5.
Definition API_DELAY : Z := 1.
Definition BATCH_SIZE : nat := 1000.
Definition PROGRESS_UPDATE_INTERVAL : nat := 10.
Definition CHECKPOINT_INTERVAL : nat := 50.
Definition UPDATE_CHECK_DAYS : Z := 7.
Definition UPDATE_LOOKBACK_DAYS : Z := 30.

Definition REQUIRED_FIELDS : list string :=
  [ "firm"; "award_title"; "agency"; "phase"; "program";
    "award_amount"; "proposal_award_date"; "contract" ].

End Config.

Import Config.

(** ** Awards and the runtime *)

Abbreviation award := (gmap string value).

(** What the Python runtime and SQLite supply and the code only calls:
    [json.dumps], SQLite's rendering of a REAL stored in a TEXT column,
    [datetime.isoformat] and [datetime.fromisoformat] (instants are
    microseconds on one clock; [None] is [ValueError]). *)
Class Runtime := {
  json_dumps : award -> string;
  real_to_text : pyfloat -> string;
  isoformat : Z -> string;
  fromisoformat : string -> option Z
}.

(** [award.get(k)] followed by a truth test. *)
Definition get_truthy (a : award) (k : string) : bool :=
  match a !! k with
  | Some v => truthy v
  | None => false
  end.

(** ** Validator ([SBIRInitialDownloader.validate_batch]) *)

Definition missing_fields (a : award) : list string :=
  List.filter (fun field => bool_decide (a !! field = None)) REQUIRED_FIELDS.

(** The body of the [for] loop, with [valid_awards] as accumulator. *)
Fixpoint validate_loop (awards valid_awards : list award) : list award :=
  match awards with
  | [] => valid_awards
  | a :: rest =>
      match missing_fields a with
      | _ :: _ => validate_loop rest valid_awards
      | [] =>
          if negb (get_truthy a "firm") || negb (get_truthy a "award_title")
          then validate_loop rest valid_awards
          else validate_loop rest (valid_awards ++ [a])
      end
  end.

Definition validate_batch (awards : list award) : list award :=
  validate_loop awards [].

(** ** Coercions ([SBIRDatabase._process_award_for_db]) *)

(** [int(v)]. *)
Inductive int_result :=
| IntOk (z : Z)
| IntValueError
| IntTypeError
| IntOverflowError.

(** A finite float cut towards zero: the float is the binary64 nearest to
    the decimal, so a decimal just below an integer may be that integer. *)
Definition trunc_float (m e : Z) : Z :=
  if m =? 0 then 0
  else
    let '(b, k) := nearest_binary64 (Z.abs m) e in
    signed (m <? 0) (if 0 <=? k then b * 2 ^ k else b / 2 ^ (- k)).

Definition py_int (v : value) : int_result :=
  match v with
  | VNone => IntTypeError
  | VBool b => IntOk (if b then 1 else 0)
  | VInt z => IntOk z
  | VFloat (FFinite m e) => IntOk (trunc_float m e)
  | VFloat (FInf _) => IntOverflowError
  | VFloat FNaN => IntValueError
  | VStr s =>
      match int_of_string s with
      | Some z => IntOk z
      | None => IntValueError
      end
  | VContainer _ => IntTypeError
  end.

(** [float(str(v).replace(',', ''))]; [None] is [ValueError].  [str] of an
    integer is its digits, and a [ValueError] when there are more than
    [int_max_str_digits] of them; [str] of a float reads back as the same
    float, and [str] of [None], of a boolean or of a container is not a
    numeric literal. *)
Definition float_of_str (v : value) : option pyfloat :=
  match v with
  | VStr s => float_of_string (remove_commas s)
  | VInt z =>
      if 10 ^ Z.of_nat int_max_str_digits <=? Z.abs z then None
      else Some (round_float z 0)
  | VFloat f => Some f
  | VNone | VBool _ | VContainer _ => None
  end.

Definition int_fields : list string :=
  [ "solicitation_year"; "award_year"; "number_employees"; "award_link" ].

(** One turn of the loop over [int_fields].  [ValueError] and [TypeError]
    are caught; [OverflowError] is not. *)
Definition coerce_int_field (processed : award) (field : string)
  : result award :=
  match processed !! field with
  | None => Ok processed
  | Some VNone => Ok processed
  | Some v =>
      match py_int v with
      | IntOk z => Ok (<[field := VInt z]> processed)
      | IntValueError | IntTypeError => Ok (<[field := VNone]> processed)
      | IntOverflowError => Raise OverflowError
      end
  end.

Definition coerce_amount (processed : award) : award :=
  match processed !! "award_amount" with
  | Some v =>
      if truthy v then
        match float_of_str v with
        | Some f => <["award_amount" := VFloat f]> processed
        | None => <["award_amount" := VNone]> processed
        end
      else processed
  | None => processed
  end.

Fixpoint coerce_int_fields (fields : list string) (processed : award)
  : result award :=
  match fields with
  | [] => Ok processed
  | field :: rest =>
      processed' ← coerce_int_field processed field;
      coerce_int_fields rest processed'
  end.

Definition _process_award_for_db `{Runtime} (a : award) : result award :=
  let processed := coerce_amount a in
  let processed := <["raw_data" := VStr (json_dumps a)]> processed in
  coerce_int_fields int_fields processed.

(** ** Storage gateway ([SBIRDatabase]) *)

(** *** SQLite values and the schema of [create_tables] *)

Inductive sqlval :=
| SqlNull
| SqlInt (z : Z)
| SqlReal (f : pyfloat)
| SqlText (s : string).

#[global] Instance sqlval_eq_dec : EqDecision sqlval.
Proof. solve_decision. Defined.

Inductive affinity := TEXT | INTEGER | REAL.

(** The columns [insert_awards] names, in the order of the statement.
    [id], [created_at] and [updated_at] are filled by the engine. *)
Definition insert_columns : list string :=
  [ "firm"; "award_title"; "agency"; "branch"; "phase"; "program";
    "agency_tracking_number"; "contract"; "proposal_award_date";
    "contract_end_date"; "solicitation_number"; "solicitation_year";
    "topic_code"; "award_year"; "award_amount"; "duns"; "uei";
    "hubzone_owned"; "socially_economically_disadvantaged"; "women_owned";
    "number_employees"; "company_url"; "address1"; "address2"; "city";
    "state"; "zip"; "poc_name"; "poc_title"; "poc_phone"; "poc_email";
    "pi_name"; "pi_title"; "pi_phone"; "pi_email"; "ri_name"; "ri_poc_name";
    "ri_poc_phone"; "research_area_keywords"; "abstract"; "award_link";
    "raw_data" ].

Definition column_affinity (c : string) : affinity :=
  if bool_decide (c ∈ int_fields) then INTEGER
  else if bool_decide (c = "award_amount") then REAL
  else TEXT.

Definition Z_to_string (z : Z) : string :=
  NilZero.string_of_int (Z.to_int z).

(** What a column keeps of a bound value.  A TEXT column renders numbers
    as text and a REAL column widens integers.  Text bound to a numeric
    column is kept as text: after [_process_award_for_db] the only text
    that reaches one is the empty [award_amount], which is no number. *)
Definition apply_affinity `{Runtime} (a : affinity) (v : sqlval) : sqlval :=
  match a, v with
  | TEXT, SqlInt z => SqlText (Z_to_string z)
  | TEXT, SqlReal f => SqlText (real_to_text f)
  | REAL, SqlInt z => SqlReal (FFinite z 0)
  | _, _ => v
  end.

(** Binding a Python value to a statement parameter.  A container is not
    a supported type, an integer must fit 64 bits, NaN is stored as NULL. *)
Definition bind_param (v : value) : result sqlval :=
  match v with
  | VNone => Ok SqlNull
  | VBool b => Ok (SqlInt (if b then 1 else 0))
  | VInt z =>
      if (- 2 ^ 63 <=? z) && (z <? 2 ^ 63) then Ok (SqlInt z)
      else Raise OverflowError
  | VFloat FNaN => Ok SqlNull
  | VFloat f => Ok (SqlReal f)
  | VStr s => Ok (SqlText s)
  | VContainer _ => Raise (SqliteError InterfaceError)
  end.

(** The named parameters of one row: every [:column] must be a key of the
    dict (else [ProgrammingError]); other keys are ignored. *)
Fixpoint bind_columns `{Runtime} (columns : list string) (processed : award)
  : result (gmap string sqlval) :=
  match columns with
  | [] => Ok ∅
  | c :: rest =>
      match processed !! c with
      | None => Raise (SqliteError ProgrammingError)
      | Some v =>
          x ← bind_param v;
          cells ← bind_columns rest processed;
          Ok (<[c := apply_affinity (column_affinity c) x]> cells)
      end
  end.

Record row := {
  row_id : Z;
  cells : gmap string sqlval;
  created_at : Z;
  updated_at : Z
}.

(** The two tables, and the AUTOINCREMENT counter of [awards]. *)
Record store := {
  awards : list row;
  sqlite_sequence : Z;
  scraper_metadata : gmap string (string * Z)
}.

Definition empty_store : store :=
  {| awards := []; sqlite_sequence := 0; scraper_metadata := ∅ |}.

Definition cell (c : gmap string sqlval) (k : string) : sqlval :=
  default SqlNull (c !! k).

(** The columns of [UNIQUE(contract, agency, agency_tracking_number)]. *)
Definition identity (c : gmap string sqlval) : sqlval * sqlval * sqlval :=
  (cell c "contract", cell c "agency", cell c "agency_tracking_number").

(** The key the UNIQUE index compares: SQLite holds NULLs distinct from
    every value, NULL included, so a triple with a NULL has no key. *)
Definition unique_key (c : gmap string sqlval)
  : option (sqlval * sqlval * sqlval) :=
  match identity c with
  | (SqlNull, _, _) | (_, SqlNull, _) | (_, _, SqlNull) => None
  | k => Some k
  end.

Definition conflicts (c : gmap string sqlval) (r : row) : bool :=
  match unique_key c with
  | Some k => bool_decide (unique_key (cells r) = Some k)
  | None => false
  end.

(** [INSERT OR REPLACE]: the rows that violate the UNIQUE index are
    deleted, then the new row is inserted with a fresh id and both
    timestamps at [CURRENT_TIMESTAMP]. *)
Definition insert_or_replace (now : Z) (db : store) (c : gmap string sqlval)
  : store :=
  let id := sqlite_sequence db + 1 in
  {| awards :=
       List.filter (fun r => negb (conflicts c r)) (awards db)
       ++ [ {| row_id := id; cells := c; created_at := now; updated_at := now |} ];
     sqlite_sequence := id;
     scraper_metadata := scraper_metadata db |}.

Fixpoint executemany `{Runtime} (now : Z) (db : store) (params : list award)
  : result store :=
  match params with
  | [] => Ok db
  | p :: rest =>
      c ← bind_columns insert_columns p;
      executemany now (insert_or_replace now db c) rest
  end.

(** A storage fault: the engine raises [sqlite3.Error] instead of running
    the statement (no such table, disk I/O error, locked file). *)
Definition execute {A} (fault : option sqlite_error) (stmt : result A)
  : result A :=
  match fault with
  | Some e => Raise (SqliteError e)
  | None => stmt
  end.

Fixpoint process_all `{Runtime} (awards : list award) : result (list award) :=
  match awards with
  | [] => Ok []
  | a :: rest =>
      p ← _process_award_for_db a;
      ps ← process_all rest;
      Ok (p :: ps)
  end.

(** [insert_awards]: the count is [cursor.rowcount], one per statement
    run.  The handler logs and raises again, so every exception reaches
    the caller. *)
Definition insert_awards `{Runtime} (fault : option sqlite_error) (now : Z)
    (db : store) (awards : list award) : result (nat * store) :=
  match awards with
  | [] => Ok (0%nat, db)
  | _ =>
      processed_awards ← process_all awards;
      db' ← execute fault (executemany now db processed_awards);
      Ok (length processed_awards, db')
  end.

(** [get_record_count]: the handler returns 0. *)
Definition get_record_count (fault : option sqlite_error) (db : store) : nat :=
  match execute fault (Ok (length (awards db))) with
  | Ok count => count
  | Raise _ => 0%nat
  end.

(** [MAX(proposal_award_date)] over the rows where it is not NULL, in the
    byte order of the TEXT column. *)
Fixpoint max_text (l : list sqlval) : option string :=
  match l with
  | [] => None
  | SqlText s :: rest =>
      match max_text rest with
      | Some m => Some (if String.leb s m then m else s)
      | None => Some s
      end
  | _ :: rest => max_text rest
  end.

(** [get_latest_date]: an empty result is [None], and the handler returns
    [None]. *)
Definition get_latest_date (fault : option sqlite_error) (db : store)
  : option string :=
  match execute fault
          (Ok (max_text (map (fun r => cell (cells r) "proposal_award_date")
                             (awards db)))) with
  | Ok (Some s) => if String.eqb s "" then None else Some s
  | Ok None => None
  | Raise _ => None
  end.

(** [set_metadata]: [INSERT OR REPLACE] on the UNIQUE key; the handler
    raises again. *)
Definition set_metadata (fault : option sqlite_error) (now : Z) (db : store)
    (key value : string) : result store :=
  execute fault
    (Ok {| awards := awards db;
           sqlite_sequence := sqlite_sequence db;
           scraper_metadata := <[key := (value, now)]> (scraper_metadata db) |}).

(** [get_metadata]: the handler returns [None]. *)
Definition get_metadata (fault : option sqlite_error) (db : store)
    (key : string) : option string :=
  match execute fault (Ok (fst <$> scraper_metadata db !! key)) with
  | Ok r => r
  | Raise _ => None
  end.

(** ** Paginated fetcher ([SBIRInitialDownloader.fetch_batch]) *)

(** What a dict holds under ['docs']: no such key, a list of awards, or
    a value without a length ([null], a number, [true] or [false]).  A
    string or an object under ['docs'] is outside the model: its items
    are no awards. *)
Inductive docs_field :=
| DocsAbsent
| DocsList (l : list award)
| DocsUnsized.

(** What [response.json()] returns: a list, a dict or any other JSON
    value. *)
Inductive json_body :=
| BodyList (l : list award)
| BodyDict (docs : docs_field)
| BodyOther.

(** One attempt, from [session.get] to [response.json()]: the JSON value
    read, or the exception raised on the way. *)
Inductive attempt :=
| Responded (data : json_body)
| Failed (e : exn).

Inductive fetch_event :=
| Get (start rows : nat) (attempt : nat)
| Sleep (seconds : Z).

(** The [for attempt in range(MAX_RETRIES)] loop over the attempts left.
    The [except] clauses are tried in the order of the source, and an
    exception of neither class leaves the function: so does the
    [TypeError] of [len(awards)] in the debug message when ['docs'] has
    no length.  Falling off the end of the loop returns [None]. *)
Fixpoint fetch_loop (http : nat -> attempt) (start_offset batch_size : nat)
    (attempts : list nat) : result (option (list award)) * list fetch_event :=
  match attempts with
  | [] => (Ok None, [])
  | attempt :: rest =>
      let get := Get start_offset batch_size attempt in
      match http attempt with
      | Responded (BodyList l) => (Ok (Some l), [get])
      | Responded (BodyDict DocsAbsent) => (Ok (Some []), [get])
      | Responded (BodyDict (DocsList l)) => (Ok (Some l), [get])
      | Responded (BodyDict DocsUnsized) => (Raise TypeError, [get])
      | Responded BodyOther => (Ok None, [get])
      | Failed e =>
          if is_RequestException e then
            if (attempt <? MAX_RETRIES - 1)%nat then
              let '(r, evs) := fetch_loop http start_offset batch_size rest in
              (r, get :: Sleep RETRY_DELAY :: evs)
            else (Ok None, [get])
          else if is_JSONDecodeError e then (Ok None, [get])
          else (Raise e, [get])
      end
  end.

Definition fetch_batch (http : nat -> attempt) (start_offset batch_size : nat)
  : result (option (list award)) * list fetch_event :=
  fetch_loop http start_offset batch_size (seq 0 MAX_RETRIES).

(** ** Full-harvest controller ([SBIRInitialDownloader.download_all_awards]) *)

(** The world of one run: the outcome of each HTTP attempt (by iteration
    of the loop, offset, page size and attempt), the interrupt flag
    [self.interrupted] as it stands once [k] batches were fetched (the
    signal handler may set it at any time), and the clock of each
    iteration. *)
Record harvest_env := {
  http : nat -> nat -> nat -> nat -> attempt;
  interrupted : nat -> bool;
  clock : nat -> Z
}.

Record loop_state := {
  offset : nat;
  consecutive_empty_batches : nat;
  total_downloaded : nat;
  db : store;
  batches : nat;
  fetched_offsets : list nat
}.

(** How one turn of the [while] loop ends: [continue] or the end of the
    body, [break], or [return False]. *)
Inductive step :=
| Continue (st : loop_state)
| Break (st : loop_state)
| Abort (st : loop_state).

Definition checkpoint `{Runtime} (now : Z) (d : store) (off : nat)
  : result store :=
  if (off mod (CHECKPOINT_INTERVAL * BATCH_SIZE) =? 0)%nat then
    d1 ← set_metadata None now d "last_download_offset"
           (Z_to_string (Z.of_nat off));
    set_metadata None now d1 "last_download_time" (isoformat now)
  else Ok d.

(** The state after a turn: one more batch fetched, at the offset the
    turn started from. *)
Definition advance (st : loop_state) (c off total : nat) (d : store)
  : loop_state :=
  {| offset := off;
     consecutive_empty_batches := c;
     total_downloaded := total;
     db := d;
     batches := S (batches st);
     fetched_offsets := fetched_offsets st ++ [offset st] |}.

(** [self.fetch_batch(offset, BATCH_SIZE)] in the current turn. *)
Definition page_of (env : harvest_env) (st : loop_state)
  : result (option (list award)) :=
  fst (fetch_batch (http env (batches st) (offset st) BATCH_SIZE)
                   (offset st) BATCH_SIZE).

(** Validated awards go to the store; a checkpoint follows when the new
    offset asks for one. *)
Definition store_page `{Runtime} (now : Z) (d : store)
    (valid_awards : list award) (new_offset : nat) : result (nat * store) :=
  '(inserted, d1) ← insert_awards None now d valid_awards;
  d2 ← checkpoint now d1 new_offset;
  Ok (inserted, d2).

Definition iteration `{Runtime} (env : harvest_env) (st : loop_state) : step :=
  let now := clock env (batches st) in
  let same c off := advance st c off (total_downloaded st) (db st) in
  match page_of env st with
  | Raise _ => Abort (same (consecutive_empty_batches st) (offset st))
  | Ok None => Abort (same (consecutive_empty_batches st) (offset st))
  | Ok (Some page) =>
      if (length page =? 0)%nat then
        let c := S (consecutive_empty_batches st) in
        if (3 <=? c)%nat then Break (same c (offset st))
        else Continue (same c (offset st + BATCH_SIZE)%nat)
      else
        match validate_batch page with
        | [] => Continue (same 0%nat (offset st + length page)%nat)
        | valid_awards =>
            match store_page now (db st) valid_awards
                             (offset st + length page)%nat with
            | Ok (inserted, d') =>
                Continue (advance st 0%nat (offset st + length page)%nat
                            (total_downloaded st + inserted)%nat d')
            | Raise _ => Abort (same 0%nat (offset st))
            end
        end
  end.

Inductive loop_exit :=
| Exited (st : loop_state)
| Returned (st : loop_state).

(** [while not self.interrupted: ...], at most [fuel] turns. *)
Fixpoint harvest_loop `{Runtime} (fuel : nat) (env : harvest_env)
    (st : loop_state) : option loop_exit :=
  match fuel with
  | O => None
  | S fuel' =>
      if interrupted env (batches st) then Some (Exited st)
      else
        match iteration env st with
        | Continue st' => harvest_loop fuel' env st'
        | Break st' => Some (Exited st')
        | Abort st' => Some (Returned st')
        end
  end.

Record run := {
  success : bool;
  final_db : store;
  fetches : list nat
}.

(** "Save final metadata" and the verdict. *)
Definition finish `{Runtime} (env : harvest_env) (st : loop_state) : run :=
  let now := clock env (batches st) in
  let saved :=
    d1 ← set_metadata None now (db st) "initial_download_completed"
           (isoformat now);
    d2 ← set_metadata None now d1 "total_records_downloaded"
           (Z_to_string (Z.of_nat (total_downloaded st)));
    if interrupted env (batches st) then
      d3 ← set_metadata None now d2 "download_interrupted" "true";
      Ok (false, d3)
    else
      d3 ← set_metadata None now d2 "download_interrupted" "false";
      Ok (true, d3) in
  match saved with
  | Ok (b, d) => {| success := b; final_db := d; fetches := fetched_offsets st |}
  | Raise _ =>
      {| success := false; final_db := db st; fetches := fetched_offsets st |}
  end.

Definition start_state (resume : bool) (d : store) : loop_state :=
  let existing_count := get_record_count None d in
  let resumed := resume && (0 <? existing_count)%nat in
  {| offset := if resumed then existing_count else 0%nat;
     consecutive_empty_batches := 0;
     total_downloaded := if resumed then existing_count else 0%nat;
     db := d;
     batches := 0;
     fetched_offsets := [] |}.

(** The run from a state of the loop on: the rest of the loop, then the
    final metadata; [return False] inside the loop skips them. *)
Definition run_from `{Runtime} (fuel : nat) (env : harvest_env)
    (st : loop_state) : option run :=
  match harvest_loop fuel env st with
  | None => None
  | Some (Exited st') => Some (finish env st')
  | Some (Returned st') =>
      Some {| success := false; final_db := db st';
              fetches := fetched_offsets st' |}
  end.

Definition download_all_awards `{Runtime} (fuel : nat) (env : harvest_env)
    (resume : bool) (d : store) : option run :=
  run_from fuel env (start_state resume d).

(** A source that does not change and never fails: the page at [start]
    is the next [rows] records. *)
Definition static_source (source : list award)
  : nat -> nat -> nat -> nat -> attempt :=
  fun _ start rows _ => Responded (BodyList (firstn rows (skipn start source))).

(** ** Incremental sync controller ([SBIRUpdateChecker]) *)

(** Microseconds in a day; [timedelta.days] rounds towards minus
    infinity. *)
Definition day : Z := 86400000000.

Definition days_between (now last : Z) : Z := (now - last) / day.

(** [get_last_update_date]: an empty or unreadable value is [None]. *)
Definition get_last_update_date `{Runtime} (d : store) : option Z :=
  match get_metadata None d "last_update_check" with
  | Some last_update_str =>
      if String.eqb last_update_str "" then None
      else fromisoformat last_update_str
  | None => None
  end.

Definition should_check_for_updates `{Runtime} (now : Z) (d : store) : bool :=
  match get_last_update_date d with
  | None => true
  | Some last_update => UPDATE_CHECK_DAYS <=? days_between now last_update
  end.

(** A stored value as the [sqlite3] module hands it to Python. *)
Definition sql_to_py (v : sqlval) : value :=
  match v with
  | SqlNull => VNone
  | SqlInt z => VInt z
  | SqlReal f => VFloat f
  | SqlText s => VStr s
  end.

(** [get_existing_contracts]: the set of
    [SELECT DISTINCT contract FROM awards WHERE contract IS NOT NULL],
    kept as a list. *)
Definition get_existing_contracts (d : store) : list value :=
  map sql_to_py
    (List.filter (fun v => negb (bool_decide (v = SqlNull)))
       (map (fun r => cell (cells r) "contract") (awards d))).

(** [contract not in existing_contracts]: a container cannot be hashed.
    Numbers of different types are not identified; a TEXT column yields
    strings only. *)
Definition not_in (contract : value) (existing_contracts : list value)
  : result bool :=
  match contract with
  | VContainer _ => Raise TypeError
  | _ => Ok (negb (bool_decide (contract ∈ existing_contracts)))
  end.

(** The loop of [identify_new_awards], with [new_awards] as accumulator. *)
Fixpoint identify_loop (recent_awards : list award)
    (existing_contracts : list value) (new_awards : list award)
  : result (list award) :=
  match recent_awards with
  | [] => Ok new_awards
  | a :: rest =>
      let contract := default VNone (a !! "contract") in
      if truthy contract then
        match not_in contract existing_contracts with
        | Ok true => identify_loop rest existing_contracts (new_awards ++ [a])
        | Ok false => identify_loop rest existing_contracts new_awards
        | Raise e => Raise e
        end
      else identify_loop rest existing_contracts new_awards
  end.

Definition identify_new_awards (recent_awards : list award)
    (existing_contracts : list value) : result (list award) :=
  identify_loop recent_awards existing_contracts [].

Inductive sync_event :=
| FetchRecent (days_back : Z)
| Upsert (new_awards : list award)
| ExportCsv.

(** The world of one check: the clock at the gate and at the writes,
    what [fetch_recent_awards] returns (the records of the pages walked
    whose date lies in the window), whether [export_to_csv] raises, and
    the storage fault, if any, that the write of each metadata key meets
    in [update_metadata]. *)
Record sync_env := {
  gate_time : Z;
  recent_awards : list award;
  write_time : Z;
  export_fails : bool;
  metadata_fault : string -> option sqlite_error
}.

(** A connection on which every metadata write goes through. *)
Definition no_fault : string -> option sqlite_error := fun _ => None.

Record sync := {
  ok : bool;
  sync_db : store;
  new_records_found : nat;
  events : list sync_event
}.

(** [update_metadata]: a write that fails is logged and dropped, the
    write after it is not tried, and what was written before it stays
    (every [set_metadata] commits). *)
Definition update_metadata `{Runtime} (fault : string -> option sqlite_error)
    (now : Z) (d : store) (found : nat) : store :=
  match set_metadata (fault "last_update_check") now d
          "last_update_check" (isoformat now) with
  | Raise _ => d
  | Ok d1 =>
      match set_metadata (fault "last_update_new_records") now d1
              "last_update_new_records" (Z_to_string (Z.of_nat found)) with
      | Ok d2 => d2
      | Raise _ => d1
      end
  end.

(** [check_for_updates] on a checker just built
    ([new_records_found = 0]).  Every exception inside the [try] makes it
    return [False]; the rows of an insert that went through stay when the
    export after it raises. *)
Definition check_for_updates `{Runtime} (env : sync_env) (force : bool)
    (d : store) : sync :=
  if negb force && negb (should_check_for_updates (gate_time env) d) then
    {| ok := true; sync_db := d; new_records_found := 0; events := [] |}
  else
    let existing_contracts := get_existing_contracts d in
    let fetched := [FetchRecent UPDATE_LOOKBACK_DAYS] in
    match recent_awards env with
    | [] =>
        {| ok := true;
           sync_db := update_metadata (metadata_fault env) (write_time env) d 0;
           new_records_found := 0; events := fetched |}
    | recent =>
        match identify_new_awards recent existing_contracts with
        | Raise _ =>
            {| ok := false; sync_db := d; new_records_found := 0;
               events := fetched |}
        | Ok [] =>
            {| ok := true;
               sync_db :=
                 update_metadata (metadata_fault env) (write_time env) d 0;
               new_records_found := 0; events := fetched |}
        | Ok new_awards =>
            match insert_awards None (write_time env) d new_awards with
            | Raise _ =>
                {| ok := false; sync_db := d; new_records_found := 0;
                   events := fetched ++ [Upsert new_awards] |}
            | Ok (inserted, d') =>
                if (0 <? inserted)%nat && export_fails env then
                  {| ok := false; sync_db := d'; new_records_found := inserted;
                     events := fetched ++ [Upsert new_awards; ExportCsv] |}
                else
                  {| ok := true;
                     sync_db :=
                       update_metadata (metadata_fault env) (write_time env) d'
                         inserted;
                     new_records_found := inserted;
                     events :=
                       fetched ++ [Upsert new_awards]
                       ++ (if (0 <? inserted)%nat then [ExportCsv] else []) |}
            end
        end
    end.

(** *** The walk over recent pages ([fetch_recent_awards]) *)

(** [award.get('proposal_award_date', '')] *)
Definition date_of (a : award) : value :=
  default (VStr "") (a !! "proposal_award_date").

(** [award_date >= threshold_str]: strings are ordered by code point;
    comparing anything else with a string is a [TypeError]. *)
Definition ge_threshold (award_date : value) (threshold_str : string)
  : result bool :=
  match award_date with
  | VStr s => Ok (String.leb threshold_str s)
  | _ => Raise TypeError
  end.

(** The loop that filters a page, with [recent_awards] as accumulator. *)
Fixpoint recent_loop (awards : list award) (threshold_str : string)
    (recent_awards : list award) : result (list award) :=
  match awards with
  | [] => Ok recent_awards
  | a :: rest =>
      if truthy (date_of a) then
        match ge_threshold (date_of a) threshold_str with
        | Ok true => recent_loop rest threshold_str (recent_awards ++ [a])
        | Ok false => recent_loop rest threshold_str recent_awards
        | Raise e => Raise e
        end
      else recent_loop rest threshold_str recent_awards
  end.

(** [max] over a sequence, the running maximum in [best]: an item
    replaces it when it is greater.  [None] is the [TypeError] of a
    comparison that is not between two strings. *)
Fixpoint max_loop (best : value) (items : list value) : option value :=
  match items with
  | [] => Some best
  | item :: rest =>
      match best, item with
      | VStr b, VStr i => max_loop (if String.ltb b i then item else best) rest
      | _, _ => None
      end
  end.

(** [max([a.get('proposal_award_date', '') for a in awards
          if a.get('proposal_award_date')])]; [None] is the [ValueError]
    of an empty sequence or the [TypeError] above. *)
Definition latest_in_batch (awards : list award) : option value :=
  match List.filter truthy (map date_of awards) with
  | [] => None
  | first :: rest => max_loop first rest
  end.

(** [latest_in_batch < threshold_str]; [None] is a [TypeError]. *)
Definition older_than (latest : value) (threshold_str : string) : option bool :=
  match latest with
  | VStr s => Some (String.ltb s threshold_str)
  | _ => None
  end.

Definition SAFETY_LIMIT : nat := 10 * BATCH_SIZE.

(** The page a turn of [fetch_recent_awards] goes on with.  [None] ends
    the walk: an exception of the request, a JSON value that is neither a
    list nor a dict, and a ['docs'] without a length, which is either
    falsy or makes the [for] loop raise a [TypeError]. *)
Definition recent_page (a : attempt) : option (list award) :=
  match a with
  | Responded (BodyList l) => Some l
  | Responded (BodyDict DocsAbsent) => Some []
  | Responded (BodyDict (DocsList l)) => Some l
  | Responded (BodyDict DocsUnsized) => None
  | Responded BodyOther => None
  | Failed _ => None
  end.

(** The [while True] loop of [fetch_recent_awards], at most [fuel] turns.
    [http start] is the single attempt made for the page at [start]; any
    exception inside the [try] ends the walk with what was gathered.  The
    second component lists the offsets requested. *)
Fixpoint recent_walk (fuel : nat) (http : nat -> attempt)
    (threshold_str : string) (start : nat) (all_recent_awards : list award)
  : list award * list nat :=
  match fuel with
  | O => (all_recent_awards, [])
  | S fuel' =>
      let stop gathered := (gathered, [start]) in
      match recent_page (http start) with
      | None | Some [] => stop all_recent_awards
      | Some awards =>
          match recent_loop awards threshold_str [] with
          | Raise _ => stop all_recent_awards
          | Ok recent_awards =>
              let gathered := all_recent_awards ++ recent_awards in
              let go_on :=
                let next := (start + length awards)%nat in
                if (SAFETY_LIMIT <=? next)%nat then stop gathered
                else
                  let '(r, offsets) :=
                    recent_walk fuel' http threshold_str next gathered in
                  (r, start :: offsets) in
              match recent_awards with
              | [] =>
                  match latest_in_batch awards with
                  | Some latest =>
                      match older_than latest threshold_str with
                      | Some false => go_on
                      | Some true | None => stop gathered
                      end
                  | None => stop gathered
                  end
              | _ => go_on
              end
          end
      end
  end.

(** Every turn but the last moves [start] by one record at least, so
    [SAFETY_LIMIT] turns are all the loop can make. *)
Definition fetch_recent_awards (http : nat -> attempt) (threshold_str : string)
  : list award * list nat :=
  recent_walk SAFETY_LIMIT http threshold_str 0 [].

(** *** The entry point ([run_update_check]) *)

(** The check is refused ([None]) until [initial_download_completed] is
    set to a value that is not empty. *)
Definition run_update_check `{Runtime} (env : sync_env) (force : bool)
    (d : store) : option sync :=
  match get_metadata None d "initial_download_completed" with
  | Some initial_complete =>
      if String.eqb initial_complete "" then None
      else Some (check_for_updates env force d)
  | None => None
  end.

(** ** Vocabulary of the properties *)

(** A payload lacks a required field. *)
Definition missing_required (a : award) : Prop :=
  Exists (fun field => a !! field = None) REQUIRED_FIELDS.

(** A field is there and empty: null, the empty string, zero, false or an
    empty container. *)
Definition empty_field (a : award) (k : string) : Prop :=
  match a !! k with
  | Some v => truthy v = false
  | None => False
  end.

Definition rejected (a : award) : Prop :=
  missing_required a ∨ empty_field a "firm" ∨ empty_field a "award_title".

#[global] Instance empty_field_dec a k : Decision (empty_field a k).
Proof. unfold empty_field. destruct (a !! k); apply _. Defined.

#[global] Instance rejected_dec a : Decision (rejected a).
Proof. unfold rejected, missing_required. apply _. Defined.

(** The cells [insert_awards] writes for an award. *)
Definition stored_cells `{Runtime} (a : award) : result (gmap string sqlval) :=
  p ← _process_award_for_db a;
  bind_columns insert_columns p.

(** The key of the UNIQUE index an award is stored under, if it can be
    stored and has one. *)
Definition award_key `{Runtime} (a : award)
  : option (sqlval * sqlval * sqlval) :=
  match stored_cells a with
  | Ok c => unique_key c
  | Raise _ => None
  end.

Definition row_keys (d : store) : list (option (sqlval * sqlval * sqlval)) :=
  map (fun r => unique_key (cells r)) (awards d).

(** The invariant of the UNIQUE index: no key is held by two rows. *)
Definition unique_index (d : store) : Prop :=
  NoDup (omap (fun r => unique_key (cells r)) (awards d)).

(** The rows of a store with a given identity triple. *)
Definition has_identity (i : sqlval * sqlval * sqlval) (r : row) : bool :=
  bool_decide (identity (cells r) = i).

Definition rows_with (i : sqlval * sqlval * sqlval) (d : store) : list row :=
  List.filter (has_identity i) (awards d).

(** A call has written the row of a key: the store holds one row with
    that identity, stamped with the time of the call, with cells that
    satisfy [good]. *)
Definition written (now : Z) (good : gmap string sqlval → Prop)
    (k : sqlval * sqlval * sqlval) (d : store) : Prop :=
  ∃ r, rows_with k d = [r] ∧ updated_at r = now ∧ good (cells r).


(** A value converted by [int], NULL when it does not convert. *)
Definition int_or_none (v : value) : value :=
  match py_int v with
  | IntOk z => VInt z
  | _ => VNone
  end.



(** The contract number of a fetched record, [None] when it has none. *)
Definition contract_of (a : award) : value := default VNone (a !! "contract").

(** A fetched record is new by its contract number: it has one, and no
    stored row carries it. *)
Definition new_by_contract (existing_contracts : list value) (a : award)
  : Prop :=
  truthy (contract_of a) = true ∧ contract_of a ∉ existing_contracts.

#[global] Instance new_by_contract_dec l a : Decision (new_by_contract l a).
Proof. unfold new_by_contract. apply _. Defined.

(** The identity triples in a store, and the triple an award is stored
    with. *)
Definition identities (d : store) : list (sqlval * sqlval * sqlval) :=
  map (fun r => identity (cells r)) (awards d).

Definition award_identity `{Runtime} (a : award)
  : option (sqlval * sqlval * sqlval) :=
  match stored_cells a with
  | Ok c => Some (identity c)
  | Raise _ => None
  end.

(** A source the harvest can store whole: every record passes
    validation and is stored under a key of the UNIQUE index, and no two
    records share a key. *)
Definition storable_source `{Runtime} (source : list award) : Prop :=
  Forall (fun a => ¬ rejected a ∧ is_Some (award_key a)) source
  ∧ NoDup (map award_key source).

(** The store holds the first records of the source, one row each, in
    the order of the source. *)
Definition holds_prefix `{Runtime} (d : store) (source : list award) : Prop :=
  row_keys d = map award_key (take (length (awards d)) source).

(** The state of the loop while the store mirrors the source up to the
    offset. *)
Definition mirrors `{Runtime} (source : list award) (st : loop_state) : Prop :=
  consecutive_empty_batches st = 0%nat
  ∧ (offset st <= length source)%nat
  ∧ row_keys (db st) = map award_key (take (offset st) source).

(** The state a turn or the loop ends in. *)
Definition step_state (s : step) : loop_state :=
  match s with Continue st | Break st | Abort st => st end.

Definition exit_state (e : loop_exit) : loop_state :=
  match e with Exited st | Returned st => st end.

(** An attempt that fails with a [RequestException]; a body that is not
    JSON, which is one of these failures; and a body that is JSON but
    neither a list nor a dict. *)
Definition transport_failure (a : attempt) : Prop :=
  ∃ e, a = Failed e ∧ is_RequestException e = true.



(** The events of [k] failed attempts, each followed by the delay. *)
Definition retried (start rows k : nat) : list fetch_event :=
  flat_map (fun j => [Get start rows j; Sleep RETRY_DELAY]) (seq 0 k).

(** ** Sample data *)

Module Sample.

(** A runtime to evaluate with: JSON text and timestamps are reduced to
    what the examples need. *)
#[local] Instance runtime : Runtime := {|
  json_dumps := fun _ => "{}";
  real_to_text := fun _ => "0.0";
  isoformat := Z_to_string;
  fromisoformat := int_of_string
|}.

(** The award of [tests/test_system.py]. *)
Definition sample_award : award :=
  list_to_map
    [ ("firm", VStr "Test Company"); ("award_title", VStr "Test Award");
      ("agency", VStr "NSF"); ("branch", VNone); ("phase", VStr "Phase I");
      ("program", VStr "SBIR"); ("agency_tracking_number", VStr "TEST123");
      ("contract", VStr "TEST123"); ("proposal_award_date", VStr "2025-01-01");
      ("contract_end_date", VStr "2026-01-01");
      ("solicitation_number", VStr "TEST-2025"); ("solicitation_year", VInt 2025);
      ("topic_code", VStr "T"); ("award_year", VInt 2025);
      ("award_amount", VStr "100000.00"); ("duns", VStr "123456789");
      ("uei", VStr "TESTCOMPANY123"); ("hubzone_owned", VStr "N");
      ("socially_economically_disadvantaged", VStr "N"); ("women_owned", VStr "N");
      ("number_employees", VInt 10); ("company_url", VStr "https://test.com");
      ("address1", VStr "123 Test St"); ("address2", VStr ""); ("city", VStr "Test City");
      ("state", VStr "TS"); ("zip", VStr "12345"); ("poc_name", VStr "Test Person");
      ("poc_title", VStr "CEO"); ("poc_phone", VStr "555-1234");
      ("poc_email", VStr "test@test.com"); ("pi_name", VStr "Test PI");
      ("pi_title", VStr "Principal Investigator"); ("pi_phone", VStr "555-1234");
      ("pi_email", VStr "pi@test.com"); ("ri_name", VNone); ("ri_poc_name", VStr "");
      ("ri_poc_phone", VNone); ("research_area_keywords", VNone);
      ("abstract", VStr "This is a test award for system validation.");
      ("award_link", VInt 12345) ].


(** The store after one call of [insert_awards] on an empty store, as
    it was when the call raises. *)
Definition store_of (now : Z) (l : list award) : store :=
  match insert_awards None now empty_store l with
  | Ok (_, d) => d
  | Raise _ => empty_store
  end.

(** A run that is never interrupted, against a source that does not
    change, with the clock at rest. *)
Definition quiet (source : list award) : harvest_env :=
  {| http := static_source source;
     interrupted := fun _ => false;
     clock := fun _ => 0 |}.



(** The sample award as [_process_award_for_db] hands it to SQLite. *)
Definition processed_sample : award :=
  match _process_award_for_db sample_award with
  | Ok p => p
  | Raise _ => ∅
  end.

(** The same award under another contract number. *)
Definition with_contract (c : string) : award :=
  <["contract" := VStr c]> sample_award.

(** A check whose fetch returns the given records. *)
Definition fetching (recent : list award) : sync_env :=
  {| gate_time := 0; recent_awards := recent; write_time := 0;
     export_fails := false; metadata_fault := no_fault |}.


(** The run of a harvest, when the fuel suffices. *)
Definition run_of (fuel : nat) (env : harvest_env) (resume : bool) (d : store)
  : run :=
  match download_all_awards fuel env resume d with
  | Some r => r
  | None => {| success := false; final_db := d; fetches := [] |}
  end.

End Sample.

(** * Properties *)

(** ** The exception monad *)

Lemma bind_Ok_inv {A B} (m : result A) (f : A → result B) (b : B) :
  m ≫= f = Ok b → ∃ a, m = Ok a ∧ f a = Ok b.
Proof. destruct m as [a|e]; [by exists a | done]. Qed.

Lemma bind_Ok {A B} (a : A) (f : A → result B) : Ok a ≫= f = f a.
Proof. done. Qed.

Lemma bind_Raise {A B} (e : exn) (f : A → result B) : Raise e ≫= f = Raise e.
Proof. done. Qed.

(** ** Validator *)

Section Validator.

Lemma missing_fields_nil (a : award) :
  missing_fields a = [] ↔ ¬ missing_required a.
Proof.
  unfold missing_fields, missing_required.
  induction REQUIRED_FIELDS as [|f fs IH]; simpl.
  - split; [intros _ H; inversion H | done].
  - rewrite Exists_cons. case_bool_decide.
    + split; [done | intros []; by left].
    + rewrite IH. tauto.
Qed.

Lemma get_truthy_false (a : award) (k : string) :
  k ∈ REQUIRED_FIELDS → ¬ missing_required a →
  get_truthy a k = false ↔ empty_field a k.
Proof.
  intros Hk Hm. unfold get_truthy, empty_field.
  destruct (a !! k) eqn:E; [done |].
  exfalso. apply Hm. apply Exists_exists. eauto.
Qed.

(** The loop keeps what it has and appends the accepted payloads in
    order. *)
Lemma validate_loop_filter (awards acc : list award) :
  validate_loop awards acc
  = acc ++ filter (fun a => ¬ rejected a) awards.
Proof.
  revert acc. induction awards as [|a rest IH]; intros acc; simpl.
  - by rewrite app_nil_r.
  - destruct (missing_fields a) eqn:Em.
    + apply missing_fields_nil in Em.
      assert (Hf : get_truthy a "firm" = false ↔ empty_field a "firm")
        by (apply get_truthy_false; [by apply (bool_decide_unpack _) | done]).
      assert (Ht : get_truthy a "award_title" = false
                   ↔ empty_field a "award_title")
        by (apply get_truthy_false; [by apply (bool_decide_unpack _) | done]).
      destruct (get_truthy a "firm") eqn:E1;
        destruct (get_truthy a "award_title") eqn:E2; simpl.
      * rewrite IH, filter_cons_True, <- app_assoc; [done |].
        unfold rejected. intros [? | [? | ?]]; [done | |].
        -- by apply Hf in H.
        -- by apply Ht in H.
      * rewrite IH, filter_cons_False; [done |].
        intros Hn. apply Hn. right; right. by apply Ht.
      * rewrite IH, filter_cons_False; [done |].
        intros Hn. apply Hn. right; left. by apply Hf.
      * rewrite IH, filter_cons_False; [done |].
        intros Hn. apply Hn. right; left. by apply Hf.
    + rewrite IH, filter_cons_False; [done |].
      intros Hn. apply Hn. left. apply dec_stable. intros Hm.
      apply missing_fields_nil in Hm. congruence.
Qed.

Lemma validate_batch_filter (awards : list award) :
  validate_batch awards = filter (fun a => ¬ rejected a) awards.
Proof. apply (validate_loop_filter awards []). Qed.

(** C9. For every list of raw payloads, [validate_batch] returns exactly
    the payloads that are neither missing a required field nor have an
    empty [firm] or [award_title]: the result is the input filtered by
    that contract, so an accepted payload is the payload itself, with no
    field changed, as often as it occurs and in the order of the input. *)
Theorem validate_batch_exact (awards : list award) :
  validate_batch awards = filter (fun a => ¬ rejected a) awards
  ∧ (∀ a, a ∈ validate_batch awards ↔ a ∈ awards ∧ ¬ rejected a)
  ∧ sublist (validate_batch awards) awards.
Proof.
  assert (E : validate_batch awards = filter (fun a => ¬ rejected a) awards)
    by apply (validate_loop_filter awards []).
  split; [done |]. rewrite E. split.
  - intros a. rewrite list_elem_of_filter. tauto.
  - apply sublist_filter.
Qed.

End Validator.

(** ** Coercions *)

Section Coercions.
Context `{Runtime}.

Lemma int_or_none_idem (v : value) : int_or_none (int_or_none v) = int_or_none v.
Proof. unfold int_or_none. by destruct (py_int v). Qed.

Lemma coerce_int_field_lookup (p p' : award) (f k : string) :
  coerce_int_field p f = Ok p' →
  p' !! k = if decide (k = f) then int_or_none <$> p !! k else p !! k.
Proof.
  unfold coerce_int_field, int_or_none. intros E.
  destruct (decide (k = f)) as [-> | Hne].
  - destruct (p !! f) as [v|] eqn:Ef; [| by simplify_eq; rewrite Ef].
    destruct v; simpl in *;
      repeat match goal with
             | E : match ?x with _ => _ end = Ok _ |- _ => destruct x eqn:?
             end;
      simplify_eq; rewrite ?lookup_insert_eq, ?Ef; simpl; try done;
      by repeat match goal with E : _ = _ |- _ => rewrite E end.
  - destruct (p !! f) as [v|] eqn:Ef; [| by simplify_eq].
    destruct v; simpl in *;
      repeat match goal with
             | E : match ?x with _ => _ end = Ok _ |- _ => destruct x eqn:?
             end;
      simplify_eq; by rewrite ?lookup_insert_ne.
Qed.

Lemma coerce_int_fields_lookup (fields : list string) (p p' : award)
    (k : string) :
  coerce_int_fields fields p = Ok p' →
  p' !! k = if decide (k ∈ fields) then int_or_none <$> p !! k else p !! k.
Proof.
  revert p. induction fields as [|f fs IH]; intros p E; simpl in E.
  - simplify_eq. by rewrite decide_False by apply not_elem_of_nil.
  - destruct (coerce_int_field p f) as [p1|] eqn:E1; simpl in E; [| done].
    rewrite (IH _ E), (coerce_int_field_lookup _ _ _ k E1).
    destruct (decide (k = f)) as [-> | Hne].
    + rewrite (decide_True (P := f ∈ f :: fs)) by apply list_elem_of_here.
      destruct (decide (f ∈ fs)); [| done].
      destruct (p !! f); simpl; [| done]. by rewrite int_or_none_idem.
    + destruct (decide (k ∈ fs)).
      * by rewrite decide_True by (by apply list_elem_of_further).
      * rewrite decide_False; [done |].
        by intros [? | ?]%elem_of_cons.
Qed.

Lemma coerce_amount_lookup (a : award) :
  coerce_amount a !! "award_amount"
  = (fun v => if truthy v then
                match float_of_str v with
                | Some f => VFloat f
                | None => VNone
                end
              else v) <$> a !! "award_amount".
Proof.
  unfold coerce_amount. destruct (a !! "award_amount") as [v|] eqn:E; simpl.
  - destruct (truthy v); [| by rewrite E].
    destruct (float_of_str v); by rewrite lookup_insert_eq.
  - by rewrite E.
Qed.

Lemma coerce_amount_other (a : award) (k : string) :
  k ≠ "award_amount" → coerce_amount a !! k = a !! k.
Proof.
  intros Hk. unfold coerce_amount.
  destruct (a !! "award_amount") as [v|]; [| done].
  destruct (truthy v); [| done].
  destruct (float_of_str v); by rewrite lookup_insert_ne.
Qed.



(** What a bound row holds in a column of the statement. *)
Lemma bind_columns_lookup (columns : list string) (p : award)
    (c : gmap string sqlval) (k : string) :
  bind_columns columns p = Ok c → k ∈ columns →
  ∃ v x, p !! k = Some v ∧ bind_param v = Ok x
         ∧ c !! k = Some (apply_affinity (column_affinity k) x).
Proof.
  revert c. induction columns as [|c0 cs IH]; intros c E Hk; simpl in E.
  - by apply elem_of_nil in Hk.
  - destruct (p !! c0) as [v|] eqn:Ev; [| done].
    destruct (bind_param v) as [x|] eqn:Ex; simpl in E; [| done].
    destruct (bind_columns cs p) as [c'|] eqn:Ec; simpl in E; [| done].
    simplify_eq. destruct (decide (k = c0)) as [-> | Hne].
    + exists v, x. by rewrite lookup_insert_eq.
    + apply elem_of_cons in Hk as [? | Hk]; [done |].
      destruct (IH _ eq_refl Hk) as (v' & x' & ? & ? & ?).
      exists v', x'. by rewrite lookup_insert_ne.
Qed.


(** A call on one award writes the cells of that award. *)
Lemma insert_one (now : Z) (d d' : store) (a : award) (n : nat) :
  insert_awards None now d [a] = Ok (n, d') →
  ∃ p c, _process_award_for_db a = Ok p
         ∧ bind_columns insert_columns p = Ok c
         ∧ n = 1%nat ∧ d' = insert_or_replace now d c.
Proof.
  unfold insert_awards. cbn [process_all]. intros E.
  apply bind_Ok_inv in E as (ps & E1 & E2).
  apply bind_Ok_inv in E1 as (p & Ep & E1).
  cbn [mbind result_bind] in E1. simplify_eq.
  apply bind_Ok_inv in E2 as (d1 & E2 & E3).
  cbn [execute executemany] in E2.
  apply bind_Ok_inv in E2 as (c & Ec & E2).
  simplify_eq. by exists p, c.
Qed.

(** What a call that succeeds has done. *)
Lemma process_all_Forall2 (batch ps : list award) :
  process_all batch = Ok ps →
  Forall2 (fun a p => _process_award_for_db a = Ok p) batch ps.
Proof.
  revert ps. induction batch as [|a batch IH]; intros ps E; simpl in E.
  - simplify_eq. constructor.
  - apply bind_Ok_inv in E as (p & Hp & E).
    apply bind_Ok_inv in E as (ps' & Hps & E). simplify_eq.
    constructor; [done | by apply IH].
Qed.

Lemma insert_awards_Ok (now : Z) (d d' : store) (batch : list award) (n : nat) :
  insert_awards None now d batch = Ok (n, d') →
  ∃ ps, Forall2 (fun a p => _process_award_for_db a = Ok p) batch ps
        ∧ executemany now d ps = Ok d' ∧ n = length batch.
Proof.
  unfold insert_awards. destruct batch as [|a batch].
  - intros E. simplify_eq. exists []. by repeat constructor.
  - intros E. apply bind_Ok_inv in E as (ps & Hps & E).
    apply bind_Ok_inv in E as (d1 & Hd & E). simplify_eq.
    apply process_all_Forall2 in Hps. exists ps.
    split; [done |]. split; [done |]. by apply Forall2_length in Hps.
Qed.

Lemma int_or_none_not_inf (v : value) (b : bool) :
  int_or_none v ≠ VFloat (FInf b).
Proof. unfold int_or_none. by destruct (py_int v). Qed.

Lemma coerce_int_field_raise (p : award) (f : string) (e : exn) :
  coerce_int_field p f = Raise e →
  e = OverflowError ∧ ∃ b, p !! f = Some (VFloat (FInf b)).
Proof.
  unfold coerce_int_field. destruct (p !! f) as [v|]; [| done].
  destruct v as [|b|z|[m x|b|]|s|b]; simpl; try done.
  - intros E. simplify_eq. eauto.
  - by destruct (int_of_string s).
Qed.

Lemma coerce_int_fields_raise (fields : list string) (p : award) (e : exn) :
  coerce_int_fields fields p = Raise e →
  e = OverflowError
  ∧ ∃ f b, f ∈ fields ∧ p !! f = Some (VFloat (FInf b)).
Proof.
  revert p. induction fields as [|f fs IH]; intros p E; [done |].
  cbn [coerce_int_fields] in E.
  destruct (coerce_int_field p f) as [p1|e1] eqn:E1.
  - rewrite bind_Ok in E. destruct (IH _ E) as (-> & f' & b & Hf' & Hp1).
    split; [done |]. exists f', b. split; [by apply list_elem_of_further |].
    rewrite (coerce_int_field_lookup _ _ _ f' E1) in Hp1.
    destruct (decide (f' = f)) as [-> | _]; [| done].
    destruct (p !! f) as [v|]; [| done]. simpl in Hp1.
    injection Hp1 as Hp1. by apply int_or_none_not_inf in Hp1.
  - rewrite bind_Raise in E. simplify_eq.
    destruct (coerce_int_field_raise _ _ _ E1) as (-> & b & Hb).
    split; [done |]. exists f, b. split; [apply list_elem_of_here | done].
Qed.

Lemma not_int_field (k : string) :
  k ∈ int_fields → k ≠ "raw_data" ∧ k ≠ "award_amount".
Proof.
  intros Hk. split; intros ->; revert Hk; by apply (bool_decide_unpack _).
Qed.

(** The only exception of [_process_award_for_db], and when it is
    raised. *)
Lemma process_award_raise (a : award) (e : exn) :
  _process_award_for_db a = Raise e →
  e = OverflowError
  ∧ ∃ field b, field ∈ int_fields ∧ a !! field = Some (VFloat (FInf b)).
Proof.
  unfold _process_award_for_db. intros E.
  destruct (coerce_int_fields_raise _ _ _ E) as (-> & f & b & Hf & Hp).
  split; [done |]. exists f, b. split; [done |].
  destruct (not_int_field f Hf) as [Hr Ha].
  by rewrite lookup_insert_ne, coerce_amount_other in Hp.
Qed.





End Coercions.

(** ** Paginated fetcher *)

Section Fetcher.

Variable http : nat -> attempt.
Variables start rows : nat.

(** One turn of the retry loop after a failure that is retried. *)
Lemma fetch_loop_retry (attempt : nat) (rest : list nat) :
  transport_failure (http attempt) →
  fetch_loop http start rows (attempt :: rest)
  = if (attempt <? MAX_RETRIES - 1)%nat then
      (fst (fetch_loop http start rows rest),
       Get start rows attempt :: Sleep RETRY_DELAY
       :: snd (fetch_loop http start rows rest))
    else (Ok None, [Get start rows attempt]).
Proof.
  intros (e & E & R). cbn [fetch_loop]. rewrite E, R.
  destruct (attempt <? MAX_RETRIES - 1)%nat; [| done].
  by destruct (fetch_loop http start rows rest).
Qed.


End Fetcher.



(** ** Storage gateway: faults *)

Section Faults.
Context `{Runtime}.



End Faults.


(** ** Full-harvest controller: one turn of the loop *)

Section Turn.
Context `{Runtime}.

Lemma iteration_empty (env : harvest_env) (st : loop_state) :
  page_of env st = Ok (Some []) →
  iteration env st
  = let c := S (consecutive_empty_batches st) in
    if (3 <=? c)%nat
    then Break (advance st c (offset st) (total_downloaded st) (db st))
    else Continue (advance st c (offset st + BATCH_SIZE)%nat
                           (total_downloaded st) (db st)).
Proof. unfold iteration. by intros ->. Qed.

Lemma iteration_nonempty (env : harvest_env) (st : loop_state)
    (page : list award) :
  page ≠ [] → page_of env st = Ok (Some page) →
  iteration env st
  = match validate_batch page with
    | [] => Continue (advance st 0%nat (offset st + length page)%nat
                              (total_downloaded st) (db st))
    | valid_awards =>
        match store_page (clock env (batches st)) (db st) valid_awards
                         (offset st + length page)%nat with
        | Ok (inserted, d') =>
            Continue (advance st 0%nat (offset st + length page)%nat
                              (total_downloaded st + inserted)%nat d')
        | Raise _ =>
            Abort (advance st 0%nat (offset st) (total_downloaded st) (db st))
        end
    end.
Proof. unfold iteration. intros Hp ->. by destruct page. Qed.

End Turn.

(** C4 as stated fails: after an empty page that does not end the run the
    offset has moved by [BATCH_SIZE], not by the zero records of the
    page. *)
Lemma empty_page_moves_offset :
  let env := Sample.quiet [] in
  let st := start_state false empty_store in
  page_of env st = Ok (Some [])
  ∧ ∃ st', iteration (H := Sample.runtime) env st = Continue st'
           ∧ offset st' = 1000%nat
           ∧ offset st' ≠ (offset st + length (@nil award))%nat.
Proof.
  split; [reflexivity |]. eexists. split; [reflexivity |].
  split; [reflexivity | by vm_compute].
Qed.

(** C4, amended. In a turn of the loop whose fetch returns a page: after
    an empty page that does not end the run (the first or the second in a
    row) the loop goes on with the offset moved by [BATCH_SIZE]; the
    third empty page in a row breaks the loop and the offset stays; after
    a page with records the loop goes on with the offset moved by the
    number of raw records of the page, whatever validation keeps of them,
    unless storing the validated records raises: then, and only then, the
    run is abandoned and the offset stays. *)
Theorem offset_advance `{Runtime} (env : harvest_env) (st : loop_state)
    (page : list award) :
  page_of env st = Ok (Some page) →
  let stored :=
    store_page (clock env (batches st)) (db st) (validate_batch page)
               (offset st + length page)%nat in
  (page = [] → (consecutive_empty_batches st < 2)%nat →
   ∃ st', iteration env st = Continue st'
          ∧ offset st' = (offset st + BATCH_SIZE)%nat)
  ∧ (page = [] → (2 <= consecutive_empty_batches st)%nat →
     ∃ st', iteration env st = Break st' ∧ offset st' = offset st)
  ∧ (page ≠ [] → validate_batch page = [] ∨ ¬ raised stored →
     ∃ st', iteration env st = Continue st'
            ∧ offset st' = (offset st + length page)%nat)
  ∧ (page ≠ [] → validate_batch page ≠ [] → raised stored →
     ∃ st', iteration env st = Abort st' ∧ offset st' = offset st).
Proof.
  intros Hp stored. repeat split.
  - intros -> Hc. rewrite (iteration_empty _ _ Hp). cbn zeta.
    destruct (3 <=? S (consecutive_empty_batches st))%nat eqn:E.
    + apply Nat.leb_le in E. lia.
    + by eexists.
  - intros -> Hc. rewrite (iteration_empty _ _ Hp). cbn zeta.
    destruct (3 <=? S (consecutive_empty_batches st))%nat eqn:E.
    + by eexists.
    + apply Nat.leb_gt in E. lia.
  - intros Hne Hs. rewrite (iteration_nonempty _ _ _ Hne Hp).
    subst stored. destruct (validate_batch page) as [|v vs]; [by eexists |].
    destruct Hs as [? | Hs]; [done |].
    destruct (store_page _ _ _ _) as [[ins d']|e]; [by eexists |].
    by destruct Hs.
  - intros Hne Hv Hs. rewrite (iteration_nonempty _ _ _ Hne Hp).
    subst stored. destruct (validate_batch page) as [|v vs]; [done |].
    destruct (store_page _ _ _ _) as [[ins d']|e]; [done | by eexists].
Qed.

Lemma offset_advance_witness :
  ∃ st', iteration (H := Sample.runtime) (Sample.quiet [Sample.sample_award])
           (start_state false empty_store) = Continue st'
         ∧ offset st' = 1%nat.
Proof.
  destruct (offset_advance (H := Sample.runtime)
              (Sample.quiet [Sample.sample_award])
              (start_state false empty_store) [Sample.sample_award])
    as (_ & _ & Hgo & _); [reflexivity |].
  apply Hgo; [discriminate |]. right.
  intros Hr. vm_compute in Hr. exact Hr.
Defined.

(** ** Full-harvest controller: end of data *)

Section EndOfData.
Context `{Runtime}.

Lemma set_metadata_lookup (now : Z) (d d' : store) (k v : string) :
  set_metadata None now d k v = Ok d' →
  get_metadata None d' k = Some v
  ∧ (∀ k', k' ≠ k → get_metadata None d' k' = get_metadata None d k')
  ∧ awards d' = awards d.
Proof.
  unfold set_metadata, get_metadata. cbn [execute]. intros E. simplify_eq.
  cbn [scraper_metadata awards]. split; [by rewrite lookup_insert_eq |].
  split; [| done]. intros k' Hk. by rewrite lookup_insert_ne.
Qed.

(** The verdict after the loop is left by [break] or by its test. *)
Lemma finish_verdict (env : harvest_env) (st : loop_state) :
  success (finish env st) = negb (interrupted env (batches st))
  ∧ fetches (finish env st) = fetched_offsets st
  ∧ awards (final_db (finish env st)) = awards (db st)
  ∧ get_metadata None (final_db (finish env st)) "download_interrupted"
    = Some (if interrupted env (batches st) then "true" else "false").
Proof.
  unfold finish. cbn [set_metadata execute mbind result_bind].
  destruct (interrupted env (batches st));
    cbn [mbind result_bind success fetches final_db awards];
    repeat split; unfold get_metadata; cbn [execute scraper_metadata];
    by rewrite lookup_insert_eq.
Qed.

(** C3, amended. In a run whose interrupt flag stays clear, three empty
    pages in a row, at offsets [BATCH_SIZE] apart, end the run as
    completed: it returns success and writes
    [download_interrupted = "false"].  When two empty pages in a row are
    followed by a page with records, the loop is not left for end of
    data: if the page holds no valid record or its valid records are
    stored, the streak counter is back at zero and the loop goes on from
    the offset after the page; if storing them raises, the run returns
    failure at that page, with the store as it was. *)
Theorem end_of_data_detection (env : harvest_env) (st : loop_state) :
  let i := batches st in
  let o := offset st in
  let page_at k off :=
    fst (fetch_batch (http env k off BATCH_SIZE) off BATCH_SIZE) in
  consecutive_empty_batches st = 0%nat →
  (∀ k, (k <= 3)%nat → interrupted env (i + k) = false) →
  page_at i o = Ok (Some []) →
  page_at (S i) (o + BATCH_SIZE)%nat = Ok (Some []) →
  (page_at (S (S i)) (o + BATCH_SIZE + BATCH_SIZE)%nat = Ok (Some []) →
   ∀ fuel, (3 <= fuel)%nat →
   ∃ r, run_from fuel env st = Some r
        ∧ success r = true
        ∧ fetches r
          = fetched_offsets st
            ++ [o; (o + BATCH_SIZE)%nat; (o + BATCH_SIZE + BATCH_SIZE)%nat]
        ∧ get_metadata None (final_db r) "download_interrupted" = Some "false")
  ∧ (∀ page, page ≠ [] →
     page_at (S (S i)) (o + BATCH_SIZE + BATCH_SIZE)%nat = Ok (Some page) →
     let stored :=
       store_page (clock env (S (S i))) (db st) (validate_batch page)
                  (o + BATCH_SIZE + BATCH_SIZE + length page)%nat in
     (validate_batch page = [] ∨ ¬ raised stored →
      ∃ st3, consecutive_empty_batches st3 = 0%nat
             ∧ offset st3 = (o + BATCH_SIZE + BATCH_SIZE + length page)%nat
             ∧ batches st3 = S (S (S i))
             ∧ ∀ fuel, harvest_loop (S (S (S fuel))) env st
                       = harvest_loop fuel env st3)
     ∧ (validate_batch page ≠ [] → raised stored →
        ∀ fuel, (3 <= fuel)%nat →
        run_from fuel env st
        = Some {| success := false; final_db := db st;
                  fetches :=
                    fetched_offsets st
                    ++ [o; (o + BATCH_SIZE)%nat;
                        (o + BATCH_SIZE + BATCH_SIZE)%nat] |})).
Proof.
  intros i o page_at Hc Hi P0 P1.
  set (st1 := advance st 1 (o + BATCH_SIZE)%nat (total_downloaded st) (db st)).
  set (st2 := advance st1 2 (o + BATCH_SIZE + BATCH_SIZE)%nat
                      (total_downloaded st) (db st)).
  assert (I0 : interrupted env (batches st) = false)
    by (rewrite <- (Hi 0%nat) by lia; f_equal; unfold i; lia).
  assert (I1 : interrupted env (batches st1) = false)
    by (rewrite <- (Hi 1%nat) by lia; f_equal; unfold i; simpl; lia).
  assert (I2 : interrupted env (batches st2) = false)
    by (rewrite <- (Hi 2%nat) by lia; f_equal; unfold i; simpl; lia).
  assert (E0 : iteration env st = Continue st1).
  { rewrite iteration_empty by exact P0. by rewrite Hc. }
  assert (E1 : iteration env st1 = Continue st2).
  { rewrite iteration_empty by exact P1. done. }
  assert (L2 : ∀ fuel, harvest_loop (S (S (S fuel))) env st
                       = harvest_loop (S fuel) env st2).
  { intros fuel. cbn [harvest_loop]. by rewrite I0, E0, I1, E1. }
  split.
  - intros P2 fuel Hfuel.
    destruct fuel as [|[|[|fuel]]]; try lia.
    set (st3 := advance st2 3 (o + BATCH_SIZE + BATCH_SIZE)%nat
                        (total_downloaded st) (db st)).
    assert (E2 : iteration env st2 = Break st3).
    { rewrite iteration_empty by exact P2. done. }
    exists (finish env st3). unfold run_from. rewrite L2.
    cbn [harvest_loop]. rewrite I2, E2.
    destruct (finish_verdict env st3) as (Hs & Hf & _ & Hm).
    assert (I3 : interrupted env (batches st3) = false)
      by (rewrite <- (Hi 3%nat) by lia; f_equal; unfold i; simpl; lia).
    rewrite I3 in Hs, Hm. split; [done |]. split; [done |].
    split; [| done]. rewrite Hf. simpl. by rewrite <- !app_assoc.
  - intros page Hne P2. cbn zeta.
    change (store_page (clock env (S (S i))) (db st) (validate_batch page)
              (o + BATCH_SIZE + BATCH_SIZE + length page)%nat)
      with (store_page (clock env (batches st2)) (db st2)
              (validate_batch page) (offset st2 + length page)%nat).
    pose proof (iteration_nonempty env st2 page Hne P2) as E2.
    destruct (validate_batch page) as [|v vs] eqn:Ev.
    { split; [| done]. intros _.
      exists (advance st2 0 (offset st2 + length page)%nat
                (total_downloaded st2) (db st2)).
      split; [reflexivity |].
      split; [reflexivity |]. split; [reflexivity |].
      intros fuel. rewrite L2. cbn [harvest_loop]. by rewrite I2, E2. }
    destruct (store_page (clock env (batches st2)) (db st2) (v :: vs)
                (offset st2 + length page)%nat) as [[ins d']|e] eqn:Es.
    + split; [| by intros _ []]. intros _.
      exists (advance st2 0 (offset st2 + length page)%nat
                (total_downloaded st2 + ins)%nat d').
      split; [reflexivity |].
      split; [reflexivity |]. split; [reflexivity |].
      intros fuel. rewrite L2. cbn [harvest_loop]. by rewrite I2, E2.
    + split; [by intros [? | Hs]; [| destruct Hs] |].
      intros _ _ fuel Hfuel.
      destruct fuel as [|[|[|fuel]]]; try lia.
      unfold run_from. rewrite L2. cbn [harvest_loop]. rewrite I2, E2.
      cbn [db fetched_offsets advance st2 st1]. simpl.
      by rewrite <- !app_assoc.
Qed.

End EndOfData.

(** C3 as stated fails.  Three empty pages in a row do not end the run
    as completed when the interrupt flag is set while they are fetched:
    the run reports failure and records [download_interrupted = "true"].
    And a page with records after two empty pages does end the run at
    that point when the store refuses it: here the record lacks the
    [branch] column, the insert raises and the run returns failure
    without the final metadata. *)
Lemma empty_pages_not_completed :
  let cancelled :=
    {| http := static_source [];
       interrupted := fun k => (3 <=? k)%nat;
       clock := fun _ => 0 |} in
  let refused :=
    {| http := fun k _ _ _ =>
                 Responded (BodyList (if (k <? 2)%nat then []
                                      else [delete "branch" Sample.sample_award]));
       interrupted := fun _ => false;
       clock := fun _ => 0 |} in
  let r1 := Sample.run_of 3 cancelled false empty_store in
  let r2 := Sample.run_of 3 refused false empty_store in
  is_Some (download_all_awards (H := Sample.runtime) 3 cancelled false
             empty_store)
  ∧ fetches r1 = [0; 1000; 2000]%nat
  ∧ success r1 = false
  ∧ get_metadata None (final_db r1) "download_interrupted" = Some "true"
  ∧ is_Some (download_all_awards (H := Sample.runtime) 3 refused false
               empty_store)
  ∧ validate_batch [delete "branch" Sample.sample_award]
    = [delete "branch" Sample.sample_award]
  ∧ fetches r2 = [0; 1000; 2000]%nat
  ∧ success r2 = false
  ∧ length (awards (final_db r2)) = 0%nat
  ∧ get_metadata None (final_db r2) "initial_download_completed" = None.
Proof.
  repeat split; try (by vm_compute);
    apply (bool_decide_unpack _); by vm_compute.
Qed.

Lemma end_of_data_detection_witness :
  ∃ r, download_all_awards (H := Sample.runtime) 3 (Sample.quiet []) false
         empty_store = Some r
       ∧ success r = true
       ∧ fetches r = [0; 1000; 2000]%nat.
Proof.
  destruct (end_of_data_detection (H := Sample.runtime) (Sample.quiet [])
              (start_state false empty_store))
    as [Hdone _]; try (by vm_compute).
  destruct (Hdone eq_refl 3%nat) as (r & Hr & Hs & Hf & _); [lia |].
  exists r. split; [exact Hr |]. split; [exact Hs |]. exact Hf.
Defined.

(** ** Incremental sync controller *)

Section Sync.
Context `{Runtime}.


Lemma identify_loop_filter (recent acc new_awards : list award)
    (contracts : list value) :
  identify_loop recent contracts acc = Ok new_awards →
  new_awards = acc ++ filter (new_by_contract contracts) recent.
Proof.
  revert acc. induction recent as [|a rest IH]; intros acc E; simpl in E.
  - simplify_eq. by rewrite app_nil_r.
  - fold (contract_of a) in E.
    destruct (truthy (contract_of a)) eqn:Et.
    + unfold not_in in E.
      destruct (contract_of a) eqn:Ec; try done;
        rewrite <- Ec in *; case_bool_decide as Hin; simpl in E;
        apply IH in E as ->;
        first [ rewrite filter_cons_False by (by intros [_ ?])
              | rewrite filter_cons_True by done ];
        by rewrite <- ?app_assoc.
    + apply IH in E as ->. rewrite filter_cons_False; [done |].
      intros [? _]. congruence.
Qed.

(** [update_metadata] writes metadata only. *)
Lemma update_metadata_awards (fault : string → option sqlite_error) (now : Z)
    (d : store) (n : nat) :
  awards (update_metadata fault now d n) = awards d.
Proof.
  unfold update_metadata, set_metadata, execute.
  by destruct (fault "last_update_check"),
              (fault "last_update_new_records").
Qed.

(** C5, amended. What [identify_new_awards] returns is the fetched
    records whose contract number is there, not empty, and equal to the
    contract number of no stored row, in the order fetched; agency and
    tracking number play no part.  A check that passes the gate hands
    exactly these records to one upsert when there is one at all.  When
    that upsert goes through, the award rows of the store after the check
    are those the upsert leaves, the number of new records reported is
    the number of these records, and the check succeeds unless the CSV
    export that follows an upsert raises.  When the upsert raises, the
    check fails, the store is as it was and no new record is reported. *)
Theorem new_award_detection (env : sync_env) (force : bool) (d : store)
    (new_awards : list award) :
  identify_new_awards (recent_awards env) (get_existing_contracts d)
  = Ok new_awards →
  force || should_check_for_updates (gate_time env) d = true →
  let s := check_for_updates env force d in
  new_awards
  = filter (new_by_contract (get_existing_contracts d)) (recent_awards env)
  ∧ List.filter (fun e => match e with Upsert _ => true | _ => false end)
      (events s)
    = match new_awards with [] => [] | _ => [Upsert new_awards] end
  ∧ (∀ n d', insert_awards None (write_time env) d new_awards = Ok (n, d') →
       awards (sync_db s) = awards d'
       ∧ new_records_found s = length new_awards
       ∧ ok s = negb ((0 <? length new_awards)%nat && export_fails env))
  ∧ (raised (insert_awards None (write_time env) d new_awards) →
     ok s = false ∧ sync_db s = d ∧ new_records_found s = 0%nat).
Proof.
  intros Hn Hg s. split; [exact (identify_loop_filter _ [] _ _ Hn) |].
  subst s. unfold check_for_updates.
  assert (Hgate : negb force && negb (should_check_for_updates (gate_time env) d)
                  = false) by (by destruct force; simpl in *; rewrite ?Hg).
  rewrite Hgate. destruct (recent_awards env) as [|r rs] eqn:Er.
  - unfold identify_new_awards in Hn. simpl in Hn. simplify_eq.
    cbn [events ok sync_db new_records_found List.filter].
    split; [done |]. split; [| done].
    intros n d' Ei. cbn [insert_awards] in Ei. simplify_eq.
    by rewrite update_metadata_awards.
  - rewrite Hn. destruct new_awards as [|a0 rest].
    + cbn [events ok sync_db new_records_found List.filter].
      split; [done |]. split; [| done].
      intros n d' Ei. cbn [insert_awards] in Ei. simplify_eq.
      by rewrite update_metadata_awards.
    + destruct (insert_awards None (write_time env) d (a0 :: rest))
        as [[ins d1]|e] eqn:Ei.
      * apply insert_awards_Ok in Ei as (ps & _ & _ & ->).
        split.
        { destruct ((0 <? length (a0 :: rest))%nat && export_fails env);
            reflexivity. }
        split; [| done]. intros n d' E'. simplify_eq.
        destruct ((0 <? length (a0 :: rest))%nat && export_fails env);
          cbn [ok sync_db new_records_found negb];
          rewrite ?update_metadata_awards; done.
      * cbn [events ok sync_db new_records_found]. split; [done |].
        split; [intros ???; done | done].
Qed.

End Sync.


(** C5 as stated fails: a fetched record whose identity triple is in no
    stored row, but whose contract number is, is not taken as new and is
    not upserted. *)
Lemma same_contract_other_agency_not_new :
  let d := Sample.store_of 0 [Sample.sample_award] in
  let r := <["agency" := VStr "DOD"]> Sample.sample_award in
  let s := check_for_updates (H := Sample.runtime) (Sample.fetching [r]) true d in
  award_identity (H := Sample.runtime) r
  = Some (SqlText "TEST123", SqlText "DOD", SqlText "TEST123")
  ∧ ¬ ((SqlText "TEST123", SqlText "DOD", SqlText "TEST123") ∈ identities d)
  ∧ identify_new_awards [r] (get_existing_contracts d) = Ok []
  ∧ events s = [FetchRecent 30]
  ∧ new_records_found s = 0%nat
  ∧ awards (sync_db s) = awards d.
Proof.
  repeat split; try (by vm_compute).
  apply (bool_decide_unpack _). by vm_compute.
Qed.

(** With the contract numbers A and B stored and B and C fetched, the
    record of C alone is upserted: the store holds the rows of A, B and
    C, and one new record is reported. *)
Lemma new_award_detection_witness :
  let d := Sample.store_of 0 [Sample.with_contract "A"; Sample.with_contract "B"] in
  let env := Sample.fetching [Sample.with_contract "B"; Sample.with_contract "C"] in
  let s := check_for_updates (H := Sample.runtime) env true d in
  List.filter (fun e => match e with Upsert _ => true | _ => false end) (events s)
  = [Upsert [Sample.with_contract "C"]]
  ∧ map (fun r => cell (cells r) "contract") (awards (sync_db s))
    = [SqlText "A"; SqlText "B"; SqlText "C"]
  ∧ new_records_found s = 1%nat
  ∧ ok s = true.
Proof.
  intros d env s.
  destruct (new_award_detection (H := Sample.runtime) env true d
              [Sample.with_contract "C"]) as (_ & Hu & Hi & _);
    [reflexivity | reflexivity |].
  assert (Hs : is_Some (match insert_awards (H := Sample.runtime) None 0 d
                                [Sample.with_contract "C"] with
                        | Ok x => Some x
                        | Raise _ => None
                        end))
    by (apply (bool_decide_unpack _); by vm_compute).
  destruct (insert_awards (H := Sample.runtime) None 0 d
              [Sample.with_contract "C"]) as [[n d']|e] eqn:Ei;
    [| by destruct Hs].
  destruct (Hi n d' Ei) as (Ha & Hc & Hok).
  split; [exact Hu |]. split; [| split; [exact Hc | exact Hok]].
  fold s in Ha. rewrite Ha.
  assert (Hd : from_option
                 (fun x => map (fun r => cell (cells r) "contract")
                               (awards (snd x)))
                 []
                 (match insert_awards (H := Sample.runtime) None 0 d
                          [Sample.with_contract "C"] with
                  | Ok x => Some x
                  | Raise _ => None
                  end)
               = [SqlText "A"; SqlText "B"; SqlText "C"]) by (by vm_compute).
  by rewrite Ei in Hd.
Defined.

(** ** Storage gateway: upsert by identity *)

Section Upsert.
Context `{Runtime}.

Lemma unique_key_identity (c : gmap string sqlval) k :
  unique_key c = Some k → identity c = k.
Proof.
  unfold unique_key. destruct (identity c) as [[x y] z].
  destruct x, y, z; intros E; by simplify_eq.
Qed.

Lemma unique_key_same_identity (c c' : gmap string sqlval) :
  identity c = identity c' → unique_key c = unique_key c'.
Proof. unfold unique_key. by intros ->. Qed.

Lemma identity_unique_key (c c0 : gmap string sqlval) k :
  unique_key c0 = Some k → identity c = k → unique_key c = Some k.
Proof.
  intros Hk Hi. rewrite <- Hk. apply unique_key_same_identity.
  by rewrite Hi, (unique_key_identity _ _ Hk).
Qed.

Lemma conflicts_true (c : gmap string sqlval) (r : row) :
  conflicts c r = true
  ↔ ∃ k, unique_key c = Some k ∧ unique_key (cells r) = Some k.
Proof.
  unfold conflicts. destruct (unique_key c) as [k|].
  - rewrite bool_decide_eq_true. split; [eauto |].
    by intros (k' & ? & ?); simplify_eq.
  - split; [done | by intros (? & ? & ?)].
Qed.

(** The rows a replacing insert deletes are those of its key. *)
Lemma replaced_rows_gone (c : gmap string sqlval) k (rows : list row) :
  unique_key c = Some k →
  List.filter (has_identity k)
    (List.filter (fun r => negb (conflicts c r)) rows) = [].
Proof.
  intros Hk. induction rows as [|r rows IH]; [done |]. simpl.
  destruct (conflicts c r) eqn:Ec; simpl; [done |].
  unfold has_identity at 1. case_bool_decide as Hi; [| done].
  assert (conflicts c r = true); [| congruence].
  apply conflicts_true. exists k. split; [done |].
  by apply (identity_unique_key _ c).
Qed.

Lemma other_rows_stay (c c0 : gmap string sqlval) k (rows : list row) :
  unique_key c0 = Some k → unique_key c ≠ Some k →
  List.filter (has_identity k)
    (List.filter (fun r => negb (conflicts c r)) rows)
  = List.filter (has_identity k) rows.
Proof.
  intros Hk Hne. induction rows as [|r rows IH]; [done |]. simpl.
  destruct (conflicts c r) eqn:Ec; simpl.
  - unfold has_identity at 2. case_bool_decide as Hi; [| done].
    apply conflicts_true in Ec as (k' & Hc & Hr).
    rewrite (identity_unique_key _ c0 k Hk Hi) in Hr. congruence.
  - by rewrite IH.
Qed.

Lemma rows_with_insert_hit (now : Z) (d : store) (c : gmap string sqlval) k :
  unique_key c = Some k →
  rows_with k (insert_or_replace now d c)
  = [ {| row_id := sqlite_sequence d + 1; cells := c;
         created_at := now; updated_at := now |} ].
Proof.
  intros Hk. unfold rows_with, insert_or_replace. cbn [awards].
  rewrite List.filter_app.
  rewrite (replaced_rows_gone _ _ _ Hk). simpl.
  unfold has_identity. cbn [cells].
  by rewrite bool_decide_eq_true_2 by (by apply unique_key_identity).
Qed.

Lemma rows_with_insert_miss (now : Z) (d : store) (c c0 : gmap string sqlval) k :
  unique_key c0 = Some k → unique_key c ≠ Some k →
  rows_with k (insert_or_replace now d c) = rows_with k d.
Proof.
  intros Hk Hne. unfold rows_with, insert_or_replace. cbn [awards].
  rewrite List.filter_app.
  rewrite (other_rows_stay _ c0 _ _ Hk Hne). simpl.
  unfold has_identity at 2. cbn [cells].
  rewrite bool_decide_eq_false_2, app_nil_r; [done |].
  intros Hi. apply Hne. by apply (identity_unique_key _ c0).
Qed.

Lemma kept_keys_sublist (c : gmap string sqlval) (rows : list row) :
  sublist
    (omap (fun r => unique_key (cells r))
       (List.filter (fun r => negb (conflicts c r)) rows))
    (omap (fun r => unique_key (cells r)) rows).
Proof.
  induction rows as [|r rows IH]; [constructor |]. simpl.
  destruct (negb (conflicts c r)); simpl;
    destruct (unique_key (cells r)); simpl.
  - apply sublist_skip. exact IH.
  - exact IH.
  - apply sublist_cons. exact IH.
  - exact IH.
Qed.

(** The index stays without duplicates under a replacing insert. *)
Lemma unique_index_insert (now : Z) (d : store) (c : gmap string sqlval) :
  unique_index d → unique_index (insert_or_replace now d c).
Proof.
  unfold unique_index, insert_or_replace. cbn [awards]. intros Hd.
  rewrite omap_app. simpl. cbn [cells].
  pose proof (kept_keys_sublist c (awards d)) as Hsub.
  destruct (unique_key c) as [k|] eqn:Hk; simpl.
  - apply NoDup_app. split; [by eapply sublist_NoDup |].
    split; [| apply NoDup_singleton].
    intros k' Hin ->%list_elem_of_singleton.
    apply list_elem_of_omap in Hin as (r & Hr & Hkr).
    apply list_elem_of_In, List.filter_In in Hr as [_ Hr].
    apply negb_true_iff in Hr.
    assert (conflicts c r = true); [| congruence].
    apply conflicts_true. eauto.
  - rewrite app_nil_r. by eapply sublist_NoDup.
Qed.

Lemma executemany_keeps (now : Z) (good : gmap string sqlval → Prop)
    (c0 : gmap string sqlval) k (ps : list award) (d d' : store) :
  unique_key c0 = Some k →
  Forall (fun p => ∀ c, bind_columns insert_columns p = Ok c →
                        unique_key c = Some k → good c) ps →
  executemany now d ps = Ok d' →
  written now good k d → written now good k d'.
Proof.
  intros Hk. revert d. induction ps as [|p ps IH]; intros d Hg E Hw;
    cbn [executemany] in E; [by simplify_eq |].
  apply bind_Ok_inv in E as (c & Hc & E).
  apply Forall_cons in Hg as [Hp Hg].
  apply (IH _ Hg E).
  destruct (decide (unique_key c = Some k)) as [Hck | Hck].
  - eexists. split; [by apply rows_with_insert_hit |]. split; [done |].
    by apply Hp.
  - destruct Hw as (r & Hr & Hu & Hgood). exists r.
    by rewrite (rows_with_insert_miss _ _ _ c0 _ Hk Hck).
Qed.

Lemma executemany_writes (now : Z) (good : gmap string sqlval → Prop)
    k (ps : list award) (d d' : store) :
  Forall (fun p => ∀ c, bind_columns insert_columns p = Ok c →
                        unique_key c = Some k → good c) ps →
  executemany now d ps = Ok d' →
  Exists (fun p => ∃ c, bind_columns insert_columns p = Ok c
                        ∧ unique_key c = Some k) ps →
  written now good k d'.
Proof.
  revert d. induction ps as [|p ps IH]; intros d Hg E Hex; cbn [executemany] in E;
    [by apply Exists_nil in Hex |].
  apply bind_Ok_inv in E as (c & Hc & E).
  pose proof Hg as Hg'. apply Forall_cons in Hg' as [Hp Hgs].
  destruct (decide (unique_key c = Some k)) as [Hck | Hck].
  - apply (executemany_keeps now good c k ps _ _ Hck Hgs E).
    eexists. split; [by apply rows_with_insert_hit |]. split; [done |].
    by apply Hp.
  - apply Exists_cons in Hex as [(c' & Hc' & Hk') | Hex];
      [rewrite Hc in Hc'; by simplify_eq |].
    by apply (IH _ Hgs E).
Qed.

Lemma executemany_unique_index (now : Z) (ps : list award) (d d' : store) :
  executemany now d ps = Ok d' → unique_index d → unique_index d'.
Proof.
  revert d. induction ps as [|p ps IH]; intros d E Hd; cbn [executemany] in E;
    [by simplify_eq |].
  apply bind_Ok_inv in E as (c & Hc & E).
  apply (IH _ E). by apply unique_index_insert.
Qed.

Lemma executemany_provenance (now : Z) (ps : list award) (d d' : store)
    (r : row) :
  executemany now d ps = Ok d' → r ∈ awards d' →
  r ∈ awards d
  ∨ ∃ p, p ∈ ps ∧ bind_columns insert_columns p = Ok (cells r)
         ∧ updated_at r = now.
Proof.
  revert d. induction ps as [|p ps IH]; intros d E Hr; cbn [executemany] in E.
  - simplify_eq. by left.
  - apply bind_Ok_inv in E as (c & Hc & E).
    destruct (IH _ E Hr) as [Hin | (p' & Hp' & Hb & Hu)].
    + unfold insert_or_replace in Hin. cbn [awards] in Hin.
      apply elem_of_app in Hin as [Hin | Hin].
      * left. by apply list_elem_of_In, List.filter_In in Hin
                   as [?%list_elem_of_In _].
      * apply list_elem_of_singleton in Hin as ->. right. exists p.
        split; [apply list_elem_of_here | done].
    + right. exists p'. split; [by apply list_elem_of_further | done].
Qed.

Lemma stored_cells_Ok (a p : award) :
  _process_award_for_db a = Ok p →
  stored_cells a = bind_columns insert_columns p.
Proof. unfold stored_cells. intros ->. apply bind_Ok. Qed.

(** C1, amended. For every store, every batch that [insert_awards] stores
    and every award of the batch whose contract, agency and tracking
    number are all stored non-null, the store holds exactly one row with
    that identity after the call, whatever it held before and however
    often the award occurs in the batch.  That row was written by this
    call: it replaces the rows the identity had, carries the time of the
    call as [updated_at] and holds the cells of an award of the batch
    with that identity.  No key of the UNIQUE index is ever held by two
    rows. *)
Theorem upsert_idempotent (now : Z) (d d' : store) (batch : list award)
    (n : nat) (r : award) (k : sqlval * sqlval * sqlval) :
  insert_awards None now d batch = Ok (n, d') →
  r ∈ batch →
  award_key r = Some k →
  (∃ row, rows_with k d' = [row]
          ∧ updated_at row = now
          ∧ ∃ a, a ∈ batch ∧ award_key a = Some k
                 ∧ stored_cells a = Ok (cells row))
  ∧ (unique_index d → unique_index d').
Proof.
  intros E Hr Hk. apply insert_awards_Ok in E as (ps & HF & E & _).
  split; [| by apply (executemany_unique_index now ps)].
  pose (good := fun c : gmap string sqlval =>
                  ∃ a, a ∈ batch ∧ award_key a = Some k ∧ stored_cells a = Ok c).
  cut (written now good k d'); [intros Hw; exact Hw |].
  apply (executemany_writes now good k ps d d'); [| exact E |]; unfold good.
  - apply Forall_forall. intros p Hp c Hc Hck.
    apply list_elem_of_lookup in Hp as [i Hi].
    destruct (Forall2_lookup_r _ _ _ _ _ HF Hi) as (a & Ha & Hap).
    exists a. split; [by eapply list_elem_of_lookup_2 |].
    unfold award_key. rewrite (stored_cells_Ok _ _ Hap), Hc.
    split; [exact Hck | reflexivity].
  - apply list_elem_of_lookup in Hr as [i Hi].
    destruct (Forall2_lookup_l _ _ _ _ _ HF Hi) as (p & Hp & Hrp).
    apply Exists_exists. exists p. split; [by eapply list_elem_of_lookup_2 |].
    unfold award_key in Hk. rewrite (stored_cells_Ok _ _ Hrp) in Hk.
    destruct (bind_columns insert_columns p) as [c|]; [| discriminate Hk].
    exists c. split; [reflexivity | exact Hk].
Qed.

End Upsert.

(** C1 as stated fails: an award whose tracking number is null is stored
    as a new row by every upsert, so a batch that holds it twice leaves
    two rows with its identity. *)
Lemma null_identity_duplicates :
  let r := <["agency_tracking_number" := VNone]> Sample.sample_award in
  let i := (SqlText "TEST123", SqlText "NSF", SqlNull) in
  award_identity (H := Sample.runtime) r = Some i
  ∧ insert_awards (H := Sample.runtime) None 0 empty_store [r; r]
    = Ok (2%nat, Sample.store_of 0 [r; r])
  ∧ map row_id (rows_with i (Sample.store_of 0 [r; r])) = [1; 2].
Proof. repeat split; reflexivity. Qed.

(** The award of the tests, upserted twice at time 7 into a store that
    holds it since time 0, is there once, stamped 7. *)
Lemma upsert_idempotent_witness :
  let a := Sample.sample_award in
  let k := (SqlText "TEST123", SqlText "NSF", SqlText "TEST123") in
  let d' := match insert_awards (H := Sample.runtime) None 7
                    (Sample.store_of 0 [a]) [a; a] with
            | Ok (_, d') => d'
            | Raise _ => empty_store
            end in
  ∃ row, rows_with k d' = [row] ∧ updated_at row = 7.
Proof.
  intros a k d'.
  destruct (upsert_idempotent (H := Sample.runtime) 7 (Sample.store_of 0 [a])
              d' [a; a] 2 a k) as [(row & Hrow & Hu & _) _].
  - reflexivity.
  - apply list_elem_of_here.
  - reflexivity.
  - exists row. split; [exact Hrow | exact Hu].
Defined.

(** ** Storage gateway: the numbers of a stored award *)

Section Numbers.
Context `{Runtime}.




(** *** Commas *)










End Numbers.



(** ** Full-harvest controller: resuming against a static source *)

Section Resume.
Context `{Runtime}.

Lemma batch_size_pos : (0 < BATCH_SIZE)%nat.
Proof. unfold BATCH_SIZE. lia. Qed.

Lemma static_page (env : harvest_env) (source : list award) (st : loop_state) :
  http env = static_source source →
  page_of env st = Ok (Some (take BATCH_SIZE (drop (offset st) source))).
Proof.
  intros Hh. unfold page_of, fetch_batch, MAX_RETRIES.
  cbn [seq fetch_loop]. rewrite Hh. reflexivity.
Qed.

Lemma checkpoint_awards (now : Z) (d : store) (off : nat) :
  ∃ d', checkpoint now d off = Ok d' ∧ awards d' = awards d.
Proof.
  unfold checkpoint. destruct (_ =? _)%nat; [| by exists d].
  unfold set_metadata. cbn [execute mbind result_bind]. by eexists.
Qed.

Lemma award_key_Some (a : award) k :
  award_key a = Some k →
  ∃ p c, _process_award_for_db a = Ok p
         ∧ bind_columns insert_columns p = Ok c ∧ unique_key c = Some k.
Proof.
  unfold award_key, stored_cells. intros E.
  destruct (_process_award_for_db a) as [p|]; [| discriminate E].
  rewrite bind_Ok in E.
  destruct (bind_columns insert_columns p) as [c|] eqn:Ec; [| discriminate E].
  exists p, c. split; [reflexivity |]. split; [exact Ec | exact E].
Qed.

Lemma process_all_storable (page : list award) :
  Forall (fun a => is_Some (award_key a)) page →
  ∃ ps, process_all page = Ok ps
        ∧ Forall2 (fun a p => ∃ c, bind_columns insert_columns p = Ok c
                                   ∧ unique_key c = award_key a) page ps.
Proof.
  induction page as [|a page IH]; intros HF.
  - exists []. split; [done | constructor].
  - apply Forall_cons in HF as [[k Hk] HF].
    destruct (IH HF) as (ps & Hps & H2).
    destruct (award_key_Some _ _ Hk) as (p & c & Hp & Hc & Hkc).
    exists (p :: ps). split.
    + cbn [process_all]. rewrite Hp, bind_Ok, Hps. reflexivity.
    + constructor; [| done]. exists c. split; [exact Hc | congruence].
Qed.

(** Rows with keys the index does not hold yet are appended. *)
Lemma executemany_appends (now : Z) (page ps : list award) (d : store) :
  Forall2 (fun a p => ∃ c, bind_columns insert_columns p = Ok c
                           ∧ unique_key c = award_key a) page ps →
  Forall (fun a => is_Some (award_key a)) page →
  NoDup (row_keys d ++ map award_key page) →
  ∃ d', executemany now d ps = Ok d'
        ∧ row_keys d' = row_keys d ++ map award_key page.
Proof.
  intros H2. revert d. induction H2 as [|a p page ps (c & Hc & Hk) H2 IH];
    intros d HF Hnd.
  - exists d. split; [done |]. by rewrite app_nil_r.
  - apply Forall_cons in HF as [[k Ha] HF].
    cbn [executemany]. rewrite Hc, bind_Ok.
    assert (Hfresh : List.filter (fun r => negb (conflicts c r)) (awards d)
                     = awards d).
    { apply NoDup_app in Hnd as (_ & Hdis & _).
      assert (Hno : ∀ r, r ∈ awards d → conflicts c r = false).
      { intros r Hr. destruct (conflicts c r) eqn:Ec; [| done].
        apply conflicts_true in Ec as (k' & Hk1 & Hk2).
        exfalso. apply (Hdis (Some k')).
        - unfold row_keys. apply list_elem_of_fmap. exists r. by rewrite Hk2.
        - rewrite <- Hk1, Hk. apply list_elem_of_here. }
      induction (awards d) as [|r rows IHr]; [done |]. simpl.
      rewrite Hno by apply list_elem_of_here. simpl. f_equal.
      apply IHr. intros r' Hr'. apply Hno. by apply list_elem_of_further. }
    assert (Hrows : row_keys (insert_or_replace now d c)
                    = row_keys d ++ [award_key a]).
    { unfold row_keys, insert_or_replace. cbn [awards]. rewrite Hfresh.
      rewrite map_app. simpl. by rewrite Hk. }
    destruct (IH (insert_or_replace now d c) HF) as (d' & Hd' & Hk').
    + rewrite Hrows, <- app_assoc. exact Hnd.
    + exists d'. split; [exact Hd' |].
      rewrite Hk', Hrows, <- app_assoc. reflexivity.
Qed.

Lemma accepted_all (page : list award) :
  Forall (fun a => ¬ rejected a) page → validate_batch page = page.
Proof.
  intros HF. rewrite validate_batch_filter.
  induction HF as [|a page Ha HF IH]; [done |].
  by rewrite filter_cons_True, IH.
Qed.

Lemma store_page_Ok (now : Z) (d : store) (page ps : list award)
    (d1 d2 : store) (off : nat) :
  page ≠ [] → process_all page = Ok ps →
  executemany now d ps = Ok d1 → checkpoint now d1 off = Ok d2 →
  store_page now d page off = Ok (length ps, d2).
Proof.
  intros Hne Hps Hd1 Hd2. unfold store_page, insert_awards.
  destruct page as [|a page']; [done |].
  rewrite Hps, bind_Ok. cbn [execute]. rewrite Hd1, !bind_Ok.
  cbn beta iota. rewrite Hd2. reflexivity.
Qed.

Section Static.
Variables (env : harvest_env) (source : list award).
Hypothesis Hhttp : http env = static_source source.
Hypothesis Hquiet : ∀ i, interrupted env i = false.

(** Past the end of the source every page is empty: the loop is left
    at the third, with the store as it was. *)
Lemma drain (st : loop_state) (fuel : nat) :
  (length source <= offset st)%nat →
  (consecutive_empty_batches st <= 2)%nat →
  (3 - consecutive_empty_batches st <= fuel)%nat →
  ∃ st', harvest_loop fuel env st = Some (Exited st') ∧ db st' = db st.
Proof.
  revert st. induction fuel as [|fuel IH]; intros st Ho Hc Hf; [lia |].
  assert (Hp : page_of env st = Ok (Some [])).
  { rewrite (static_page env source st Hhttp), drop_ge by done. done. }
  cbn [harvest_loop]. rewrite Hquiet, (iteration_empty env st Hp). cbn zeta.
  destruct (3 <=? S (consecutive_empty_batches st))%nat eqn:E.
  - eexists. split; [reflexivity | reflexivity].
  - apply Nat.leb_gt in E.
    destruct (IH (advance st (S (consecutive_empty_batches st))
                    (offset st + BATCH_SIZE)%nat (total_downloaded st) (db st)))
      as (st' & Hl & Hd); cbn [advance offset consecutive_empty_batches];
      [lia | lia | lia |].
    exists st'. split; [exact Hl | exact Hd].
Qed.

Lemma page_length (o : nat) :
  length (take BATCH_SIZE (drop o source))
  = Nat.min BATCH_SIZE (length source - o).
Proof. by rewrite length_take, length_drop. Qed.

Lemma prefix_extended (o : nat) :
  take o source ++ take BATCH_SIZE (drop o source)
  = take (o + length (take BATCH_SIZE (drop o source))) source.
Proof.
  rewrite take_take_drop, page_length.
  destruct (decide (BATCH_SIZE <= length source - o)%nat).
  - by rewrite Nat.min_l.
  - rewrite Nat.min_r by lia. by rewrite !take_ge by lia.
Qed.

(** A turn on a page of the source: its records are appended to the
    store and the offset moves past them. *)
Lemma turn_with_records (st : loop_state) :
  storable_source source → mirrors source st →
  (offset st < length source)%nat →
  ∃ st', iteration env st = Continue st'
         ∧ mirrors source st' ∧ (offset st < offset st')%nat.
Proof.
  intros [Hst Hnd] (Hc & Hle & Hk) Ho.
  set (page := take BATCH_SIZE (drop (offset st) source)).
  assert (Hlen : length page = Nat.min BATCH_SIZE (length source - offset st))
    by apply page_length.
  pose proof batch_size_pos as HB.
  assert (Hne : page ≠ []) by (intros E; rewrite E in Hlen; cbn [length] in Hlen; lia).
  assert (HF : Forall (fun a => ¬ rejected a ∧ is_Some (award_key a)) page)
    by (by apply Forall_take, Forall_drop).
  assert (Hacc : validate_batch page = page).
  { apply accepted_all. eapply Forall_impl; [exact HF |]. by intros a [? _]. }
  assert (Hsome : Forall (fun a => is_Some (award_key a)) page).
  { eapply Forall_impl; [exact HF |]. by intros a [_ ?]. }
  destruct (process_all_storable page Hsome) as (ps & Hps & H2).
  destruct (executemany_appends (clock env (batches st)) page ps (db st) H2 Hsome)
    as (d1 & Hd1 & Hk1).
  { rewrite Hk, <- map_app. unfold page. rewrite prefix_extended.
    rewrite <- List.firstn_map.
    eapply sublist_NoDup; [exact Hnd | apply sublist_take]. }
  destruct (checkpoint_awards (clock env (batches st)) d1
              (offset st + length page)%nat) as (d2 & Hd2 & Ha2).
  assert (Hstore : store_page (clock env (batches st)) (db st) page
                     (offset st + length page)%nat
                   = Ok (length ps, d2)).
  { by apply (store_page_Ok _ _ _ _ d1). }
  exists (advance st 0%nat (offset st + length page)%nat
                  (total_downloaded st + length ps)%nat d2).
  split.
  - rewrite (iteration_nonempty env st page Hne (static_page _ _ _ Hhttp)).
    rewrite Hacc. clearbody page. destruct page as [|a page']; [done |].
    rewrite Hstore. reflexivity.
  - assert (Hpos : (0 < length page)%nat)
      by (rewrite Hlen; apply Nat.min_glb_lt; lia).
    assert (Hfit : (length page <= length source - offset st)%nat)
      by (rewrite Hlen; apply Nat.le_min_r).
    unfold mirrors. cbn [advance offset consecutive_empty_batches db].
    fold page. split; [| lia]. split; [done |]. split; [lia |].
    unfold row_keys in *. rewrite Ha2, Hk1, Hk, <- map_app.
    unfold page. by rewrite prefix_extended.
Qed.

(** The loop stores the rest of the source and is left at its end. *)
Lemma harvest_reaches_end (n : nat) (st : loop_state) (fuel : nat) :
  storable_source source → mirrors source st →
  (length source - offset st <= n)%nat → (n + 3 <= fuel)%nat →
  ∃ st', harvest_loop fuel env st = Some (Exited st')
         ∧ row_keys (db st') = map award_key source.
Proof.
  intros Hs. revert st fuel.
  induction n as [|n IH]; intros st fuel Hm Hn Hf.
  - destruct Hm as (Hc & Hle & Hk).
    destruct (drain st fuel) as (st' & Hl & Hd); [lia | lia | lia |].
    exists st'. split; [exact Hl |]. rewrite Hd, Hk. by rewrite take_ge by lia.
  - destruct (decide (offset st < length source)%nat) as [Ho | Ho].
    + destruct (turn_with_records st Hs Hm Ho) as (st1 & Hi & Hm1 & Hlt).
      destruct fuel as [|fuel]; [lia |].
      destruct (IH st1 fuel Hm1) as (st' & Hl & Hk'); [lia | lia |].
      exists st'. split; [| exact Hk'].
      cbn [harvest_loop]. by rewrite Hquiet, Hi.
    + destruct Hm as (Hc & Hle & Hk).
      destruct (drain st fuel) as (st' & Hl & Hd); [lia | lia | lia |].
      exists st'. split; [exact Hl |]. rewrite Hd, Hk.
      by rewrite take_ge by lia.
Qed.

End Static.

Lemma iteration_fetched (env : harvest_env) (st : loop_state) :
  fetched_offsets (step_state (iteration env st))
  = fetched_offsets st ++ [offset st].
Proof.
  unfold iteration. destruct (page_of env st) as [[page|]|]; [| done | done].
  destruct (length page =? 0)%nat.
  - cbn zeta. by destruct (3 <=? _)%nat.
  - destruct (validate_batch page); [done |].
    by destruct (store_page _ _ _ _) as [[??]|].
Qed.

Lemma harvest_loop_fetched (env : harvest_env) (fuel : nat) (st : loop_state)
    (ex : loop_exit) :
  harvest_loop fuel env st = Some ex →
  fetched_offsets st `prefix_of` fetched_offsets (exit_state ex).
Proof.
  revert st. induction fuel as [|fuel IH]; intros st E; [done |].
  cbn [harvest_loop] in E. destruct (interrupted env (batches st)).
  - by simplify_eq.
  - pose proof (iteration_fetched env st) as Hf.
    destruct (iteration env st) as [st'|st'|st']; cbn [step_state] in Hf.
    + apply IH in E. etrans; [| exact E]. rewrite Hf. by apply prefix_app_r.
    + simplify_eq. cbn [exit_state]. rewrite Hf. by apply prefix_app_r.
    + simplify_eq. cbn [exit_state]. rewrite Hf. by apply prefix_app_r.
Qed.

Lemma run_from_fetches (env : harvest_env) (fuel : nat) (st : loop_state)
    (r : run) :
  run_from fuel env st = Some r →
  ∃ ex, harvest_loop fuel env st = Some ex
        ∧ fetches r = fetched_offsets (exit_state ex).
Proof.
  unfold run_from. destruct (harvest_loop fuel env st) as [[st'|st']|];
    intros E; simplify_eq.
  - eexists. split; [done |]. by destruct (finish_verdict env st') as (_ & ? & _).
  - by eexists.
Qed.

Lemma start_offset (d : store) :
  offset (start_state true d) = length (awards d)
  ∧ consecutive_empty_batches (start_state true d) = 0%nat
  ∧ fetched_offsets (start_state true d) = []
  ∧ batches (start_state true d) = 0%nat
  ∧ db (start_state true d) = d.
Proof.
  unfold start_state, get_record_count. cbn [execute offset]. simpl.
  by destruct (awards d).
Qed.

(** C2, amended. A full harvest started with resume on a store of N > 0
    records, and not interrupted before its first turn, issues its first
    page fetch at offset N.  Against a source that does not change, never
    fails and is never interrupted, where every record passes validation
    and is stored under its own key of the UNIQUE index, and with a store
    that holds the first N records of the source, the run completes and
    the final number of stored records is the number of records of the
    source. *)
Theorem resume_and_complete (env : harvest_env) (d : store) :
  ((0 < length (awards d))%nat → interrupted env 0 = false →
   ∀ fuel r, download_all_awards fuel env true d = Some r →
             head (fetches r) = Some (length (awards d)))
  ∧ (∀ source, http env = static_source source →
       (∀ i, interrupted env i = false) →
       storable_source source → holds_prefix d source →
       ∀ fuel, (length source + 3 <= fuel)%nat →
       ∃ r, download_all_awards fuel env true d = Some r
            ∧ success r = true
            ∧ get_record_count None (final_db r) = length source).
Proof.
  destruct (start_offset d) as (Ho & Hc & Hf & Hb & Hd). split.
  - intros _ Hi fuel r E. unfold download_all_awards in E.
    apply run_from_fetches in E as (ex & E & ->).
    destruct fuel as [|fuel]; [done |]. cbn [harvest_loop] in E.
    rewrite Hb, Hi in E.
    pose proof (iteration_fetched env (start_state true d)) as Hit.
    rewrite Hf, Ho in Hit. simpl in Hit.
    assert (Hpre : [length (awards d)] `prefix_of` fetched_offsets (exit_state ex)).
    { rewrite <- Hit. destruct (iteration env (start_state true d));
        cbn [step_state]; first [by apply harvest_loop_fetched in E
                                | by simplify_eq]. }
    destruct Hpre as [rest ->]. done.
  - intros source Hh Hq Hs Hp fuel Hfuel. unfold download_all_awards.
    assert (Hlen : (length (awards d) <= length source)%nat).
    { unfold holds_prefix, row_keys in Hp.
      apply (f_equal length) in Hp.
      rewrite !length_map, length_take in Hp. lia. }
    destruct (harvest_reaches_end env source Hh Hq (length source)
                (start_state true d) fuel Hs) as (st' & Hl & Hk); [| lia | lia |].
    { unfold mirrors. rewrite Hc, Ho, Hd. by repeat split. }
    exists (finish env st'). unfold run_from. rewrite Hl.
    destruct (finish_verdict env st') as (Hv & _ & Ha & _).
    split; [done |]. split; [by rewrite Hv, Hq |].
    unfold get_record_count. cbn [execute]. rewrite Ha.
    apply (f_equal length) in Hk. unfold row_keys in Hk.
    by rewrite !length_map in Hk.
Qed.

End Resume.

(** C2 as stated fails: a source record that validation rejects is
    fetched and dropped, so the run completes with fewer rows than the
    source has records. *)
Lemma rejected_record_not_counted :
  let a := Sample.with_contract "A" in
  let b := <["firm" := VStr ""]> (Sample.with_contract "B") in
  let d := Sample.store_of 0 [a] in
  length (awards d) = 1%nat
  ∧ match download_all_awards (H := Sample.runtime) 4 (Sample.quiet [a; b])
            true d with
    | Some r =>
        success r = true
        ∧ fetches r = [1; 2; 1002; 2002]%nat
        ∧ get_record_count None (final_db r) = 1%nat
        ∧ get_record_count None (final_db r) ≠ length [a; b]
    | None => False
    end.
Proof. vm_compute. repeat split; try reflexivity. discriminate. Qed.

(** A store that holds A, resumed against the source A, B: the first
    fetch is at offset 1 and the run ends with two rows. *)
Lemma resume_and_complete_witness :
  let a := Sample.with_contract "A" in
  let b := Sample.with_contract "B" in
  ∃ r, download_all_awards (H := Sample.runtime) 5 (Sample.quiet [a; b]) true
         (Sample.store_of 0 [a]) = Some r
       ∧ head (fetches r) = Some 1%nat
       ∧ get_record_count None (final_db r) = 2%nat.
Proof.
  intros a b.
  destruct (resume_and_complete (H := Sample.runtime) (Sample.quiet [a; b])
              (Sample.store_of 0 [a])) as [Hfirst Hall].
  destruct (Hall [a; b]) with (fuel := 5%nat) as (r & Hr & _ & Hn).
  - reflexivity.
  - intros i. reflexivity.
  - split; apply (bool_decide_unpack _); by vm_compute.
  - reflexivity.
  - exact (le_n 5).
  - exists r. split; [exact Hr |]. split; [| exact Hn].
    apply (Hfirst (le_n 1) eq_refl 5%nat r Hr).
Defined.

(** * Further properties of the code *)

(** ** Metadata *)

(** X1. A value written with [set_metadata] is what [get_metadata]
    returns for that key afterwards; the other keys and the award rows
    are untouched. *)
Theorem metadata_round_trip (now : Z) (d : store) (k v : string) :
  ∃ d', set_metadata None now d k v = Ok d'
        ∧ get_metadata None d' k = Some v
        ∧ (∀ k', k' ≠ k → get_metadata None d' k' = get_metadata None d k')
        ∧ awards d' = awards d.
Proof.
  eexists. split; [reflexivity |].
  unfold get_metadata. cbn [execute scraper_metadata awards].
  split; [by rewrite lookup_insert_eq |]. split; [| done].
  intros k' Hk. by rewrite lookup_insert_ne.
Qed.

(** ** What processing keeps and when it fails *)

Section Processing.
Context `{Runtime}.

Lemma processed_fields (a p : award) :
  _process_award_for_db a = Ok p →
  p !! "raw_data" = Some (VStr (json_dumps a))
  ∧ (∀ k, k ∉ "award_amount" :: "raw_data" :: int_fields → p !! k = a !! k)
  ∧ (∀ k, k ≠ "raw_data" → is_Some (p !! k) ↔ is_Some (a !! k)).
Proof.
  intros E. unfold _process_award_for_db in E.
  assert (Hl : ∀ k, p !! k
                    = if decide (k ∈ int_fields)
                      then int_or_none <$>
                             <["raw_data" := VStr (json_dumps a)]>
                               (coerce_amount a) !! k
                      else <["raw_data" := VStr (json_dumps a)]>
                             (coerce_amount a) !! k)
    by (intros k; apply (coerce_int_fields_lookup _ _ _ k E)).
  split; [| split].
  - rewrite Hl, decide_False by (by apply (bool_decide_unpack _)).
    apply lookup_insert_eq.
  - intros k Hk. rewrite Hl.
    apply not_elem_of_cons in Hk as [Ha Hk].
    apply not_elem_of_cons in Hk as [Hr Hk].
    rewrite decide_False by done.
    rewrite lookup_insert_ne by done. by apply coerce_amount_other.
  - intros k Hk. rewrite Hl.
    assert (Hc : is_Some (coerce_amount a !! k) ↔ is_Some (a !! k)).
    { destruct (decide (k = "award_amount")) as [-> | Hne].
      - rewrite coerce_amount_lookup. by rewrite fmap_is_Some.
      - by rewrite coerce_amount_other. }
    rewrite <- Hc. destruct (decide (k ∈ int_fields)).
    + by rewrite fmap_is_Some, lookup_insert_ne.
    + by rewrite lookup_insert_ne.
Qed.

(** X2. [_process_award_for_db] leaves every field but [award_amount] and
    the four integer fields as it is, adds no field but [raw_data], drops
    none, and [raw_data] is the JSON text of the award as it came in,
    before any coercion. *)
Theorem processing_keeps_fields (a p : award) :
  _process_award_for_db a = Ok p →
  p !! "raw_data" = Some (VStr (json_dumps a))
  ∧ (∀ k, k ∉ "award_amount" :: "raw_data" :: int_fields → p !! k = a !! k)
  ∧ (∀ k, k ≠ "raw_data" → is_Some (p !! k) ↔ is_Some (a !! k)).
Proof. apply processed_fields. Qed.

(** X3. [_process_award_for_db] raises for one reason only: an integer
    field holds an infinite float, whose [int] is an [OverflowError] the
    handler does not catch. *)
Theorem processing_raises_on_infinity (a : award) (e : exn) :
  _process_award_for_db a = Raise e →
  e = OverflowError
  ∧ ∃ field b, field ∈ int_fields ∧ a !! field = Some (VFloat (FInf b)).
Proof. apply process_award_raise. Qed.

End Processing.

Lemma processing_keeps_fields_witness :
  Sample.processed_sample !! "raw_data" = Some (VStr "{}")
  ∧ Sample.processed_sample !! "firm" = Some (VStr "Test Company").
Proof.
  destruct (processing_keeps_fields (H := Sample.runtime) Sample.sample_award
              Sample.processed_sample) as (Hr & Hk & _); [reflexivity |].
  split; [exact Hr |]. rewrite Hk; [reflexivity |].
  apply (bool_decide_unpack _). by vm_compute.
Defined.

Lemma processing_raises_on_infinity_witness :
  ∃ field b, field ∈ int_fields
    ∧ <["award_year" := VFloat (FInf false)]> Sample.sample_award !! field
      = Some (VFloat (FInf b)).
Proof.
  destruct (processing_raises_on_infinity (H := Sample.runtime)
              (<["award_year" := VFloat (FInf false)]> Sample.sample_award)
              OverflowError) as [_ Hf]; [reflexivity | exact Hf].
Defined.

(** ** Upserts: refusals, counts and provenance *)

Section UpsertMore.
Context `{Runtime}.

Lemma bind_columns_missing (columns : list string) (p : award) (c : string) :
  c ∈ columns → p !! c = None → raised (bind_columns columns p).
Proof.
  induction columns as [|c0 cs IH]; intros Hc Hp; [by apply elem_of_nil in Hc |].
  cbn [bind_columns]. destruct (decide (c = c0)) as [-> | Hne].
  - by rewrite Hp.
  - apply elem_of_cons in Hc as [? | Hc]; [done |].
    destruct (p !! c0) as [v|]; [| done].
    destruct (bind_param v) as [x|]; [| done]. rewrite bind_Ok.
    specialize (IH Hc Hp). by destruct (bind_columns cs p).
Qed.

Lemma executemany_raises (now : Z) (ps : list award) (d : store) (p : award) :
  p ∈ ps → raised (bind_columns insert_columns p) →
  raised (executemany now d ps).
Proof.
  revert d. induction ps as [|p0 ps IH]; intros d Hp Hr;
    [by apply elem_of_nil in Hp |].
  cbn [executemany].
  destruct (bind_columns insert_columns p0) as [c|] eqn:Ec; [| done].
  rewrite bind_Ok. apply elem_of_cons in Hp as [-> | Hp].
  - by rewrite Ec in Hr.
  - by apply IH.
Qed.

(** X4. [insert_awards] raises when an award of the batch lacks one of
    the columns the statement names: the batch is not stored. *)
Theorem insert_refuses_missing_column (fault : option sqlite_error) (now : Z)
    (d : store) (batch : list award) (a : award) (c : string) :
  a ∈ batch → c ∈ insert_columns → c ≠ "raw_data" → a !! c = None →
  raised (insert_awards fault now d batch).
Proof.
  intros Ha Hc Hr Hm. unfold insert_awards.
  destruct batch as [|a0 batch]; [by apply elem_of_nil in Ha |].
  destruct (process_all (a0 :: batch)) as [ps|] eqn:Eps; [| done].
  rewrite bind_Ok. destruct fault as [e|]; [done |]. cbn [execute].
  apply process_all_Forall2 in Eps.
  apply list_elem_of_lookup in Ha as [i Hi].
  destruct (Forall2_lookup_l _ _ _ _ _ Eps Hi) as (p & Hp & Hap).
  assert (Hpc : p !! c = None).
  { destruct (processed_fields _ _ Hap) as (_ & _ & Hs).
    apply eq_None_not_Some. rewrite (Hs c Hr). by rewrite Hm. }
  pose proof (executemany_raises now ps d p
                (list_elem_of_lookup_2 _ _ _ Hp)
                (bind_columns_missing _ _ _ Hc Hpc)) as Hx.
  by destruct (executemany now d ps).
Qed.

Lemma filter_conflicts_length (c : gmap string sqlval) (rows : list row) :
  NoDup (omap (fun r => unique_key (cells r)) rows) →
  (length rows
   <= S (length (List.filter (fun r => negb (conflicts c r)) rows)))%nat.
Proof.
  induction rows as [|r rows IH]; intros Hnd; [simpl; lia |].
  cbn [List.filter]. destruct (conflicts c r) eqn:Ec; cbn [negb length].
  - apply conflicts_true in Ec as (k & Hk & Hr).
    cbn [omap list_omap] in Hnd. rewrite Hr in Hnd.
    apply NoDup_cons in Hnd as [Hnot _].
    assert (Hall : List.filter (fun r => negb (conflicts c r)) rows = rows).
    { clear IH. induction rows as [|r' rows IH']; [done |].
      cbn [List.filter]. destruct (conflicts c r') eqn:Ec'.
      - exfalso. apply Hnot. apply conflicts_true in Ec' as (k' & Hk' & Hr').
        cbn [omap list_omap]. rewrite Hr'. rewrite Hk in Hk'. simplify_eq.
        apply list_elem_of_here.
      - cbn [negb]. f_equal. apply IH'. intros Hin. apply Hnot.
        cbn [omap list_omap]. destruct (unique_key (cells r'));
          [by apply list_elem_of_further | done]. }
    rewrite Hall. lia.
  - assert (Hnd' : NoDup (omap (fun r => unique_key (cells r)) rows)).
    { cbn [omap list_omap] in Hnd. destruct (unique_key (cells r));
        [by apply NoDup_cons in Hnd as [_ ?] | done]. }
    specialize (IH Hnd'). lia.
Qed.

Lemma filter_length_le {A} (f : A → bool) (l : list A) :
  (length (List.filter f l) <= length l)%nat.
Proof. induction l as [|x l IH]; simpl; [lia |]. destruct (f x); simpl; lia. Qed.

Lemma executemany_size (now : Z) (ps : list award) (d d' : store) :
  executemany now d ps = Ok d' →
  (length (awards d') <= length (awards d) + length ps)%nat
  ∧ (unique_index d → (length (awards d) <= length (awards d'))%nat).
Proof.
  revert d. induction ps as [|p ps IH]; intros d E; cbn [executemany] in E.
  - simplify_eq. simpl. lia.
  - apply bind_Ok_inv in E as (c & Hc & E).
    destruct (IH _ E) as [Hup Hlow].
    assert (Hlen : length (awards (insert_or_replace now d c))
                   = S (length (List.filter (fun r => negb (conflicts c r))
                                  (awards d)))).
    { unfold insert_or_replace. cbn [awards]. rewrite length_app. simpl. lia. }
    pose proof (filter_length_le (fun r => negb (conflicts c r)) (awards d)).
    split.
    + cbn [length]. lia.
    + intros Hu. specialize (Hlow (unique_index_insert now d c Hu)).
      pose proof (filter_conflicts_length c (awards d) Hu). lia.
Qed.

(** X5. What [insert_awards] returns on success is the number of awards
    handed in, replaced rows included: the table grows by at most that
    number, and on a table that satisfies the UNIQUE index it never
    shrinks. *)
Theorem insert_count_and_size (now : Z) (d d' : store) (batch : list award)
    (n : nat) :
  insert_awards None now d batch = Ok (n, d') →
  n = length batch
  ∧ (length (awards d') <= length (awards d) + n)%nat
  ∧ (unique_index d → (length (awards d) <= length (awards d'))%nat).
Proof.
  intros E. apply insert_awards_Ok in E as (ps & HF & E & ->).
  split; [done |]. apply Forall2_length in HF. rewrite HF.
  exact (executemany_size now ps d d' E).
Qed.

(** X6. Only validated records are persisted: every row in the store
    after a turn of the harvest loop was there before the turn or holds
    the cells of an award of the fetched page that validation accepts. *)
Theorem turn_persists_only_valid (env : harvest_env) (st : loop_state)
    (page : list award) (r : row) :
  page_of env st = Ok (Some page) →
  r ∈ awards (db (step_state (iteration env st))) →
  r ∈ awards (db st)
  ∨ ∃ a, a ∈ page ∧ ¬ rejected a ∧ stored_cells a = Ok (cells r).
Proof.
  intros Hp Hr. destruct (decide (page = [])) as [-> | Hne].
  - rewrite (iteration_empty _ _ Hp) in Hr. cbn zeta in Hr.
    left. by destruct (3 <=? _)%nat.
  - rewrite (iteration_nonempty _ _ _ Hne Hp) in Hr.
    destruct (validate_batch page) as [|v vs] eqn:Ev; [by left |].
    destruct (store_page _ _ _ _) as [[ins d']|] eqn:Es; [| by left].
    cbn [step_state advance db] in Hr. unfold store_page in Es.
    apply bind_Ok_inv in Es as ([ins' d1] & Hi & Es).
    apply bind_Ok_inv in Es as (d2 & Hck & Es). simplify_eq.
    destruct (checkpoint_awards (clock env (batches st)) d1
                (offset st + length page)%nat) as (d2' & Hck' & Ha).
    rewrite Hck in Hck'. simplify_eq. rewrite Ha in Hr.
    apply insert_awards_Ok in Hi as (ps & HF & Ex & _).
    destruct (executemany_provenance _ _ _ _ _ Ex Hr)
      as [? | (p & Hpin & Hb & _)]; [by left |].
    right. apply list_elem_of_lookup in Hpin as [i Hi].
    destruct (Forall2_lookup_r _ _ _ _ _ HF Hi) as (a & Ha' & Hap).
    exists a. apply list_elem_of_lookup_2 in Ha'. rewrite <- Ev in Ha'.
    rewrite validate_batch_filter in Ha'.
    apply list_elem_of_filter in Ha' as [? ?].
    split; [done |]. split; [done |]. by rewrite (stored_cells_Ok _ _ Hap).
Qed.

End UpsertMore.

Lemma insert_refuses_missing_column_witness :
  raised (insert_awards (H := Sample.runtime) None 0 empty_store
            [delete "branch" Sample.sample_award]).
Proof.
  apply (insert_refuses_missing_column (H := Sample.runtime) None 0 empty_store
           _ (delete "branch" Sample.sample_award) "branch").
  - apply list_elem_of_here.
  - apply (bool_decide_unpack _). by vm_compute.
  - discriminate.
  - reflexivity.
Defined.

Lemma insert_count_and_size_witness :
  let d := Sample.store_of 0 [Sample.sample_award] in
  let d' := Sample.store_of 0 [Sample.sample_award; Sample.sample_award] in
  (length (awards d') <= length (awards empty_store) + 2)%nat.
Proof.
  intros d d'.
  destruct (insert_count_and_size (H := Sample.runtime) 0 empty_store d'
              [Sample.sample_award; Sample.sample_award] 2) as (_ & Hup & _);
    [reflexivity | exact Hup].
Defined.

Lemma turn_persists_only_valid_witness :
  let env := Sample.quiet [Sample.sample_award] in
  let st := start_state false empty_store in
  Forall (fun r =>
            r ∈ awards (db st)
            ∨ ∃ a, a ∈ [Sample.sample_award] ∧ ¬ rejected a
                   ∧ stored_cells (H := Sample.runtime) a = Ok (cells r))
         (awards (db (step_state (iteration (H := Sample.runtime) env st)))).
Proof.
  intros env st. apply Forall_forall. intros r.
  apply (turn_persists_only_valid (H := Sample.runtime) env st
           [Sample.sample_award] r).
  reflexivity.
Defined.

(** ** The latest date *)

Section LatestDate.

Lemma string_leb_trans (a b c : string) :
  String.leb a b = true → String.leb b c = true → String.leb a c = true.
Proof.
  unfold String.leb. revert b c.
  induction a as [|x a IH]; intros [|y b] [|z c]; simpl; try easy.
  unfold Ascii.compare.
  destruct (N.compare_spec (N_of_ascii x) (N_of_ascii y)) as [Exy|Exy|Exy];
    destruct (N.compare_spec (N_of_ascii y) (N_of_ascii z)) as [Eyz|Eyz|Eyz];
    try easy.
  - rewrite Exy, Eyz, N.compare_refl. apply IH.
  - rewrite Exy. rewrite (proj2 (N.compare_lt_iff _ _) Eyz). easy.
  - rewrite <- Eyz. rewrite (proj2 (N.compare_lt_iff _ _) Exy). easy.
  - rewrite (proj2 (N.compare_lt_iff _ _) (N.lt_trans _ _ _ Exy Eyz)). easy.
Qed.

Lemma string_leb_empty (s : string) : String.leb s "" = true → s = "".
Proof. destruct s; [easy | unfold String.leb; simpl; easy]. Qed.

Lemma string_leb_refl (s : string) : String.leb s s = true.
Proof.
  unfold String.leb. induction s as [|x s IH]; simpl; [easy |].
  unfold Ascii.compare. rewrite N.compare_refl. exact IH.
Qed.

Lemma string_ltb_leb (a b : string) : String.ltb a b = negb (String.leb b a).
Proof.
  unfold String.ltb, String.leb. rewrite (String.compare_antisym a b).
  destruct (String.compare b a); reflexivity.
Qed.

Lemma max_text_greatest (l : list sqlval) :
  match max_text l with
  | Some m => SqlText m ∈ l ∧ ∀ s, SqlText s ∈ l → String.leb s m = true
  | None => ∀ s, SqlText s ∉ l
  end.
Proof.
  induction l as [|v l IH]; [intros s Hs; by apply elem_of_nil in Hs |].
  destruct v as [|z|f|s0]; cbn [max_text];
    try (destruct (max_text l) as [m|];
         [ destruct IH as [Hin Hle]; split; [by apply list_elem_of_further |];
           intros s [? | Hs]%elem_of_cons; [done | by apply Hle]
         | intros s [? | Hs]%elem_of_cons; [done | by apply (IH s)] ]).
  destruct (max_text l) as [m|].
  - destruct IH as [Hin Hle]. destruct (String.leb s0 m) eqn:E.
    + split; [by apply list_elem_of_further |].
      intros s [Hs | Hs]%elem_of_cons; [by simplify_eq | by apply Hle].
    + split; [apply list_elem_of_here |].
      assert (Hm : String.leb m s0 = true)
        by (destruct (String.leb_total s0 m); congruence).
      intros s [Hs | Hs]%elem_of_cons.
      * simplify_eq. apply string_leb_refl.
      * eapply string_leb_trans; [by apply Hle | done].
  - split; [apply list_elem_of_here |].
    intros s [Hs | Hs]%elem_of_cons.
    + simplify_eq. apply string_leb_refl.
    + by destruct (IH s).
Qed.

(** X7. On a healthy store [get_latest_date] returns the greatest
    [proposal_award_date] among the rows that hold a text date, in the
    byte order of strings, and it is the date of some row; it returns
    [None] exactly when no row holds a date that is not empty. *)
Theorem latest_date_is_greatest (d : store) :
  match get_latest_date None d with
  | Some m =>
      m ≠ ""
      ∧ (∃ r, r ∈ awards d
              ∧ cell (cells r) "proposal_award_date" = SqlText m)
      ∧ (∀ r s, r ∈ awards d →
                cell (cells r) "proposal_award_date" = SqlText s →
                String.leb s m = true)
  | None =>
      ∀ r s, r ∈ awards d →
             cell (cells r) "proposal_award_date" = SqlText s → s = ""
  end.
Proof.
  unfold get_latest_date. cbn [execute].
  pose proof (max_text_greatest
                (map (fun r => cell (cells r) "proposal_award_date") (awards d)))
    as Hm.
  assert (Hin : ∀ r s, r ∈ awards d →
                  cell (cells r) "proposal_award_date" = SqlText s →
                  SqlText s ∈ map (fun r => cell (cells r) "proposal_award_date")
                                  (awards d)).
  { intros r s Hr Hs. rewrite <- Hs. apply list_elem_of_In.
    apply (in_map (fun r => cell (cells r) "proposal_award_date")).
    by apply list_elem_of_In. }
  destruct (max_text _) as [m|].
  - destruct Hm as [Hmem Hle]. destruct (String.eqb m "") eqn:E.
    + apply String.eqb_eq in E as ->. intros r s Hr Hs.
      apply string_leb_empty. apply Hle. by eapply Hin.
    + apply String.eqb_neq in E. split; [done |]. split.
      * apply list_elem_of_In, in_map_iff in Hmem as (r & Hr & Hin').
        exists r. split; [by apply list_elem_of_In | done].
      * intros r s Hr Hs. apply Hle. by eapply Hin.
  - intros r s Hr Hs. exfalso. apply (Hm s). by eapply Hin.
Qed.

End LatestDate.

(** ** The attempts of a page fetch *)

(** An attempt is retried, or it is the last request of the call. *)
Lemma fetch_loop_cases (http : nat -> attempt) (start rows attempt : nat)
    (rest : list nat) :
  transport_failure (http attempt)
  ∨ snd (fetch_loop http start rows (attempt :: rest))
    = [Get start rows attempt].
Proof.
  cbn [fetch_loop].
  destruct (http attempt) as [[l|[|l|]|]|e] eqn:E; try (by right).
  destruct (is_RequestException e) eqn:R; [left; by exists e |].
  right. by destruct (is_JSONDecodeError e).
Qed.

(** X8. Whatever the attempts return, one call of [fetch_batch] makes at
    most [MAX_RETRIES] requests, numbered from 0 without a gap; each
    request but the last has failed with a [RequestException] and is
    followed by one sleep of [RETRY_DELAY] seconds, and nothing follows
    the last request. *)
Theorem fetch_batch_attempts (http : nat -> attempt) (start rows : nat) :
  ∃ k, (k < MAX_RETRIES)%nat
       ∧ snd (fetch_batch http start rows)
         = retried start rows k ++ [Get start rows k]
       ∧ ∀ j, (j < k)%nat → transport_failure (http j).
Proof.
  unfold fetch_batch, MAX_RETRIES. cbn [seq].
  destruct (fetch_loop_cases http start rows 0 [1; 2]%nat) as [T0 | S0].
  2: { exists 0%nat. split; [lia |]. split; [exact S0 | intros; lia]. }
  rewrite (fetch_loop_retry http start rows 0 _ T0).
  destruct (fetch_loop_cases http start rows 1 [2]%nat) as [T1 | S1].
  2: { exists 1%nat. split; [lia |]. split.
       - cbn [snd Nat.ltb Nat.leb MAX_RETRIES Nat.sub]. by rewrite S1.
       - intros j Hj. by replace j with 0%nat by lia. }
  rewrite (fetch_loop_retry http start rows 1 _ T1).
  exists 2%nat. split; [lia |]. split.
  - destruct (fetch_loop_cases http start rows 2 []) as [T2 | S2].
    + by rewrite (fetch_loop_retry http start rows 2 _ T2).
    + cbn [snd Nat.ltb Nat.leb MAX_RETRIES Nat.sub]. by rewrite S2.
  - intros j Hj. assert (j = 0 ∨ j = 1)%nat as [-> | ->] by lia; done.
Qed.

(** ** Validation twice *)

(** X9. Validating a validated batch changes nothing, and validation
    never returns more payloads than it was given. *)
Theorem validate_batch_idempotent (awards : list award) :
  validate_batch (validate_batch awards) = validate_batch awards
  ∧ (length (validate_batch awards) <= length awards)%nat.
Proof.
  split.
  - apply accepted_all. rewrite validate_batch_filter.
    apply Forall_forall. intros a Ha. by apply list_elem_of_filter in Ha as [? _].
  - rewrite validate_batch_filter. apply length_filter.
Qed.

(** ** The harvest loop as a whole *)

Section Harvest.
Context `{Runtime}.

Lemma iteration_aborts (env : harvest_env) (st : loop_state) :
  page_of env st = Ok None ∨ raised (page_of env st) →
  iteration env st
  = Abort (advance st (consecutive_empty_batches st) (offset st)
                   (total_downloaded st) (db st)).
Proof.
  unfold iteration. intros [-> | Hr]; [done |].
  by destruct (page_of env st).
Qed.

Lemma continue_moves_on (env : harvest_env) (st st' : loop_state) :
  iteration env st = Continue st' → (offset st < offset st')%nat.
Proof.
  pose proof batch_size_pos as HB.
  destruct (page_of env st) as [[page|]|e] eqn:Hp.
  - destruct (decide (page = [])) as [-> | Hne].
    + rewrite (iteration_empty _ _ Hp). cbn zeta.
      destruct (3 <=? _)%nat; intros E; simplify_eq. simpl. lia.
    + rewrite (iteration_nonempty _ _ _ Hne Hp).
      assert (0 < length page)%nat by (destruct page; [done | simpl; lia]).
      destruct (validate_batch page).
      * intros E. simplify_eq. simpl. lia.
      * destruct (store_page _ _ _ _) as [[??]|]; intros E; simplify_eq.
        simpl. lia.
  - rewrite iteration_aborts by (by left). done.
  - rewrite iteration_aborts by (right; by rewrite Hp). done.
Qed.

Lemma offsets_stay_sorted (fuel : nat) (env : harvest_env) (st : loop_state)
    (ex : loop_exit) :
  harvest_loop fuel env st = Some ex →
  StronglySorted lt (fetched_offsets st) →
  Forall (fun o => (o < offset st)%nat) (fetched_offsets st) →
  StronglySorted lt (fetched_offsets (exit_state ex)).
Proof.
  revert st. induction fuel as [|fuel IH]; intros st E Hs Hlt; [done |].
  cbn [harvest_loop] in E. destruct (interrupted env (batches st)).
  { by simplify_eq. }
  pose proof (iteration_fetched env st) as Hf.
  assert (Hnext : StronglySorted lt (fetched_offsets st ++ [offset st])).
  { apply StronglySorted_app_2; [| done | repeat constructor].
    intros x1 x2 Hx1 ->%list_elem_of_singleton.
    by apply (proj1 (Forall_forall _ _) Hlt). }
  destruct (iteration env st) as [st'|st'|st'] eqn:Ei; cbn [step_state] in Hf.
  - apply (IH st' E); rewrite Hf; [done |].
    apply continue_moves_on in Ei. apply Forall_app. split.
    + eapply Forall_impl; [exact Hlt |]. intros o Ho. simpl in Ho. lia.
    + by repeat constructor.
  - simplify_eq. cbn [exit_state]. by rewrite Hf.
  - simplify_eq. cbn [exit_state]. by rewrite Hf.
Qed.

(** X10. Within one run the pages are fetched at strictly increasing
    offsets: no offset is requested twice and none is revisited. *)
Theorem fetch_offsets_increase (fuel : nat) (env : harvest_env)
    (resume : bool) (d : store) (r : run) :
  download_all_awards fuel env resume d = Some r →
  StronglySorted lt (fetches r).
Proof.
  unfold download_all_awards. intros E.
  apply run_from_fetches in E as (ex & E & ->).
  apply (offsets_stay_sorted _ _ _ _ E); by constructor.
Qed.

Lemma static_run_ends (env : harvest_env) (source : list award)
    (fuel : nat) (st : loop_state) :
  http env = static_source source →
  (consecutive_empty_batches st <= 2)%nat →
  ((offset st < length source)%nat
   ∧ (length source - offset st + 3 <= fuel)%nat)
  ∨ ((length source <= offset st)%nat
     ∧ (3 - consecutive_empty_batches st <= fuel)%nat) →
  is_Some (harvest_loop fuel env st).
Proof.
  intros Hh. revert st. induction fuel as [|fuel IH]; intros st Hc Hm; [lia |].
  cbn [harvest_loop]. destruct (interrupted env (batches st)); [done |].
  pose proof (static_page env source st Hh) as Hp.
  pose proof batch_size_pos as HB.
  destruct Hm as [[Ho Hf] | [Ho Hf]].
  - set (page := take BATCH_SIZE (drop (offset st) source)) in *.
    assert (Hlen : (0 < length page)%nat).
    { unfold page. rewrite length_take, length_drop.
      apply Nat.min_glb_lt; lia. }
    assert (Hne : page ≠ []) by (intros E; rewrite E in Hlen; simpl in Hlen; lia).
    rewrite (iteration_nonempty _ _ _ Hne Hp).
    assert (Hgo : ∀ total d', is_Some (harvest_loop fuel env
                     (advance st 0 (offset st + length page) total d'))).
    { intros total d'. apply IH; cbn [advance consecutive_empty_batches offset];
        [lia |].
      destruct (decide (offset st + length page < length source)%nat);
        [left | right]; lia. }
    destruct (validate_batch page); [apply Hgo |].
    destruct (store_page _ _ _ _) as [[??]|]; [apply Hgo | done].
  - rewrite drop_ge in Hp by done.
    rewrite (iteration_empty _ _ Hp). cbn zeta.
    destruct (3 <=? S (consecutive_empty_batches st))%nat eqn:E; [done |].
    apply Nat.leb_gt in E.
    apply IH; cbn [advance consecutive_empty_batches offset]; [lia |].
    right. lia.
Qed.

(** X11. Against a source that does not change, a harvest always ends,
    whatever the records are and whether it is interrupted or not: within
    as many turns as the source has records, plus three, it has completed
    or aborted. *)
Theorem static_harvest_terminates (env : harvest_env) (source : list award)
    (resume : bool) (d : store) (fuel : nat) :
  http env = static_source source →
  (length source + 3 <= fuel)%nat →
  is_Some (download_all_awards fuel env resume d).
Proof.
  intros Hh Hf. unfold download_all_awards, run_from.
  destruct (static_run_ends env source fuel (start_state resume d) Hh)
    as [ex Hex].
  - change (consecutive_empty_batches (start_state resume d)) with 0%nat. lia.
  - change (consecutive_empty_batches (start_state resume d)) with 0%nat.
    destruct (decide (offset (start_state resume d) < length source)%nat);
      [left | right]; lia.
  - rewrite Hex. by destruct ex.
Qed.


(** X13. When every attempt at a page fails with a [RequestException]
    the run returns failure at once and writes nothing: the store is the
    one the last turn left, with no final metadata and no
    [download_interrupted] flag. *)
Theorem failed_fetch_aborts (env : harvest_env) (st : loop_state)
    (fuel : nat) :
  interrupted env (batches st) = false →
  (∀ j, (j < MAX_RETRIES)%nat →
        transport_failure (http env (batches st) (offset st) BATCH_SIZE j)) →
  run_from (S fuel) env st
  = Some {| success := false; final_db := db st;
            fetches := fetched_offsets st ++ [offset st] |}.
Proof.
  intros Hi Hf.
  assert (Hp : page_of env st = Ok None).
  { unfold page_of, fetch_batch. unfold MAX_RETRIES at 1. cbn [seq].
    by rewrite !fetch_loop_retry by (apply Hf; unfold MAX_RETRIES; lia). }
  unfold run_from. cbn [harvest_loop].
  rewrite Hi, iteration_aborts by (by left). done.
Qed.

End Harvest.

Lemma fetch_offsets_increase_witness :
  StronglySorted lt
    (fetches (Sample.run_of 4 (Sample.quiet [Sample.sample_award]) false
                empty_store)).
Proof.
  unfold Sample.run_of.
  assert (Hs : is_Some (download_all_awards (H := Sample.runtime) 4
                          (Sample.quiet [Sample.sample_award]) false
                          empty_store))
    by (apply (bool_decide_unpack _); by vm_compute).
  destruct Hs as [r Hr]. rewrite Hr.
  exact (fetch_offsets_increase (H := Sample.runtime) 4
           (Sample.quiet [Sample.sample_award]) false empty_store r Hr).
Defined.

Lemma static_harvest_terminates_witness :
  is_Some (download_all_awards (H := Sample.runtime) 4
             (Sample.quiet [Sample.sample_award]) true empty_store).
Proof.
  apply (static_harvest_terminates (H := Sample.runtime)
           (Sample.quiet [Sample.sample_award]) [Sample.sample_award]);
    [reflexivity | exact (le_n 4)].
Defined.


Lemma failed_fetch_aborts_witness :
  run_from (H := Sample.runtime) 1
    {| http := fun _ _ _ _ => Failed RequestException;
       interrupted := fun _ => false; clock := fun _ => 0 |}
    (start_state false empty_store)
  = Some {| success := false; final_db := empty_store; fetches := [0%nat] |}.
Proof.
  apply (failed_fetch_aborts (H := Sample.runtime)
           {| http := fun _ _ _ _ => Failed RequestException;
              interrupted := fun _ => false; clock := fun _ => 0 |}
           (start_state false empty_store) 0); [reflexivity |].
  intros j _. by exists RequestException.
Defined.

(** ** The schedule gate and what arms it *)

Section Gate.
Context `{Runtime}.

Lemma day_pos : 0 < day.
Proof. reflexivity. Qed.

Lemma days_at_least (now last : Z) :
  UPDATE_CHECK_DAYS <= days_between now last
  ↔ UPDATE_CHECK_DAYS * day <= now - last.
Proof.
  unfold days_between. pose proof day_pos as Hd. split; intros Hle.
  - pose proof (Z.mul_div_le (now - last) day Hd). nia.
  - apply Z.div_le_lower_bound; [done |]. by rewrite Z.mul_comm.
Qed.

(** X14. [should_check_for_updates] opens when no last check can be read
    and when the last check is at least [UPDATE_CHECK_DAYS] whole days
    old; a check younger by a microsecond keeps it shut. *)
Theorem gate_boundary (now : Z) (d : store) :
  should_check_for_updates now d
  = match get_last_update_date d with
    | None => true
    | Some last => bool_decide (UPDATE_CHECK_DAYS * day <= now - last)
    end.
Proof.
  unfold should_check_for_updates. destruct (get_last_update_date d); [| done].
  case_bool_decide as Hb.
  - apply Z.leb_le. by apply days_at_least.
  - apply Z.leb_gt. apply Z.nle_gt. intros Hle. by apply Hb, days_at_least.
Qed.

Lemma gate_shut (now : Z) (d : store) (last : Z) :
  get_last_update_date d = Some last →
  now - last < UPDATE_CHECK_DAYS * day →
  should_check_for_updates now d = false.
Proof.
  intros Hl Hy. unfold should_check_for_updates. rewrite Hl.
  apply Z.leb_gt. apply Z.nle_gt. intros Hle. apply days_at_least in Hle. lia.
Qed.

Lemma update_metadata_last_check (fault : string → option sqlite_error)
    (now : Z) (d : store) (n : nat) :
  fault "last_update_check" = None →
  get_metadata None (update_metadata fault now d n) "last_update_check"
  = Some (isoformat now).
Proof.
  intros Hf. unfold update_metadata, set_metadata, get_metadata.
  rewrite Hf. cbn [execute].
  destruct (fault "last_update_new_records");
    cbn [execute scraper_metadata].
  - by rewrite lookup_insert_eq.
  - by rewrite lookup_insert_ne, lookup_insert_eq.
Qed.

(** A failed write of [last_update_check] leaves the store as it was. *)
Lemma update_metadata_dropped (fault : string → option sqlite_error)
    (now : Z) (d : store) (n : nat) (e : sqlite_error) :
  fault "last_update_check" = Some e → update_metadata fault now d n = d.
Proof. intros Hf. unfold update_metadata, set_metadata. by rewrite Hf. Qed.

Lemma executemany_metadata (now : Z) (ps : list award) (d d' : store) :
  executemany now d ps = Ok d' → scraper_metadata d' = scraper_metadata d.
Proof.
  revert d. induction ps as [|p ps IH]; intros d E; cbn [executemany] in E;
    [by simplify_eq |].
  apply bind_Ok_inv in E as (c & _ & E). by rewrite (IH _ E).
Qed.

Lemma check_writes_metadata (env : sync_env) (force : bool) (d : store) :
  force || should_check_for_updates (gate_time env) d = true →
  ok (check_for_updates env force d) = true →
  ∃ d' n, sync_db (check_for_updates env force d)
          = update_metadata (metadata_fault env) (write_time env) d' n
          ∧ scraper_metadata d' = scraper_metadata d.
Proof.
  intros Hg. unfold check_for_updates.
  assert (Hgate : negb force && negb (should_check_for_updates (gate_time env) d)
                  = false) by (by destruct force; simpl in *; rewrite ?Hg).
  rewrite Hgate. destruct (recent_awards env); [by eexists _, _ |].
  destruct (identify_new_awards _ _) as [[|??]|]; [by eexists _, _ | | done].
  destruct (insert_awards _ _ _ _) as [[ins d1]|] eqn:Ei; [| done].
  destruct ((0 <? ins)%nat && export_fails env);
    [intros Hok; cbn [ok] in Hok; discriminate |].
  intros _. exists d1, ins. split; [done |].
  apply insert_awards_Ok in Ei as (ps & _ & Ei & _).
  by apply executemany_metadata in Ei.
Qed.

(** X15. A check that goes past the gate and succeeds arms the gate when
    its write of [last_update_check] goes through: provided the timestamp
    it writes reads back as the same instant, a later check without
    [force] within [UPDATE_CHECK_DAYS] days of that instant fetches
    nothing and leaves the store as it is.  When that write fails the
    error is dropped: the check has succeeded all the same, and the gate
    answers after it what it answered before it. *)
Theorem successful_check_arms_gate (env env' : sync_env) (force : bool)
    (d : store) :
  force || should_check_for_updates (gate_time env) d = true →
  ok (check_for_updates env force d) = true →
  (metadata_fault env "last_update_check" = None →
   isoformat (write_time env) ≠ "" →
   fromisoformat (isoformat (write_time env)) = Some (write_time env) →
   gate_time env' - write_time env < UPDATE_CHECK_DAYS * day →
   check_for_updates env' false (sync_db (check_for_updates env force d))
   = {| ok := true; sync_db := sync_db (check_for_updates env force d);
        new_records_found := 0; events := [] |})
  ∧ (∀ e, metadata_fault env "last_update_check" = Some e →
     ∀ t, should_check_for_updates t (sync_db (check_for_updates env force d))
          = should_check_for_updates t d).
Proof.
  intros Hg Hok.
  destruct (check_writes_metadata env force d Hg Hok) as (d' & n & -> & Hm).
  split.
  - intros Hf Hne Hrt Hy.
    assert (Hl : get_last_update_date
                   (update_metadata (metadata_fault env) (write_time env) d' n)
                 = Some (write_time env)).
    { unfold get_last_update_date.
      rewrite (update_metadata_last_check _ _ _ _ Hf).
      apply String.eqb_neq in Hne. by rewrite Hne. }
    unfold check_for_updates at 1. by rewrite (gate_shut _ _ _ Hl Hy).
  - intros e Hf t. rewrite (update_metadata_dropped _ _ _ _ e Hf).
    unfold should_check_for_updates, get_last_update_date, get_metadata.
    cbn [execute]. by rewrite Hm.
Qed.

Lemma contract_kept (now : Z) (c : string) (cs : gmap string sqlval)
    (d : store) :
  (∃ r, r ∈ awards d ∧ cell (cells r) "contract" = SqlText c) →
  ∃ r, r ∈ awards (insert_or_replace now d cs)
       ∧ cell (cells r) "contract" = SqlText c.
Proof.
  intros (r & Hr & Hc). unfold insert_or_replace. cbn [awards].
  destruct (conflicts cs r) eqn:Ec.
  - apply conflicts_true in Ec as (k & Hk1 & Hk2).
    eexists. split; [apply elem_of_app; right; apply list_elem_of_here |].
    cbn [cells]. apply unique_key_identity in Hk1, Hk2.
    unfold identity in Hk1, Hk2. rewrite <- Hk2 in Hk1.
    injection Hk1 as Hk1 _ _. by rewrite Hk1.
  - exists r. split; [| done]. apply elem_of_app. left.
    apply list_elem_of_In, List.filter_In. split; [by apply list_elem_of_In |].
    by rewrite Ec.
Qed.

Lemma executemany_contract_kept (now : Z) (c : string) (ps : list award)
    (d d' : store) :
  executemany now d ps = Ok d' →
  (∃ r, r ∈ awards d ∧ cell (cells r) "contract" = SqlText c) →
  ∃ r, r ∈ awards d' ∧ cell (cells r) "contract" = SqlText c.
Proof.
  revert d. induction ps as [|p ps IH]; intros d E Hc;
    cbn [executemany] in E; [by simplify_eq |].
  apply bind_Ok_inv in E as (cs & _ & E).
  apply (IH _ E). by apply contract_kept.
Qed.

Lemma executemany_contract_written (now : Z) (c : string) (ps : list award)
    (d d' : store) (p : award) :
  executemany now d ps = Ok d' → p ∈ ps →
  p !! "contract" = Some (VStr c) →
  ∃ r, r ∈ awards d' ∧ cell (cells r) "contract" = SqlText c.
Proof.
  revert d. induction ps as [|p0 ps IH]; intros d E Hp Hc;
    cbn [executemany] in E; [by apply elem_of_nil in Hp |].
  apply bind_Ok_inv in E as (cs & Hcs & E).
  apply elem_of_cons in Hp as [-> | Hp]; [| by apply (IH _ E)].
  apply (executemany_contract_kept _ _ _ _ _ E).
  destruct (bind_columns_lookup _ _ _ "contract" Hcs)
    as (v & x & Hv & Hx & Hl); [by apply (bool_decide_unpack _) |].
  rewrite Hc in Hv. simplify_eq. simpl in Hx. simplify_eq.
  eexists. split.
  - unfold insert_or_replace. cbn [awards]. apply elem_of_app. right.
    apply list_elem_of_here.
  - cbn [cells]. unfold cell. by rewrite Hl.
Qed.

(** X16. An award with a contract number that [insert_awards] has stored
    is not new to [identify_new_awards] any more: a check that fetches it
    again finds its contract among the existing ones. *)
Theorem upserted_not_new_again (now : Z) (d d' : store) (batch : list award)
    (n : nat) (a : award) (c : string) :
  insert_awards None now d batch = Ok (n, d') →
  a ∈ batch → a !! "contract" = Some (VStr c) →
  identify_new_awards [a] (get_existing_contracts d') = Ok [].
Proof.
  intros E Ha Hc. unfold identify_new_awards. cbn [identify_loop].
  rewrite Hc. cbn [default from_option id truthy].
  destruct (String.eqb c "") eqn:Ec; [reflexivity |]. cbn [negb not_in].
  apply insert_awards_Ok in E as (ps & HF & E & _).
  apply list_elem_of_lookup in Ha as [i Hi].
  destruct (Forall2_lookup_l _ _ _ _ _ HF Hi) as (p & Hp & Hap).
  assert (Hpc : p !! "contract" = Some (VStr c)).
  { destruct (processed_fields _ _ Hap) as (_ & Hk & _).
    rewrite Hk; [done |]. by apply (bool_decide_unpack _). }
  destruct (executemany_contract_written _ _ _ _ _ _ E
              (list_elem_of_lookup_2 _ _ _ Hp) Hpc) as (r & Hr & Hcell).
  rewrite bool_decide_eq_true_2; [reflexivity |].
  unfold get_existing_contracts.
  change (VStr c) with (sql_to_py (SqlText c)).
  apply list_elem_of_In, in_map, List.filter_In. split.
  - rewrite <- Hcell.
    apply (in_map (fun r => cell (cells r) "contract")).
    by apply list_elem_of_In.
  - by rewrite bool_decide_eq_false_2.
Qed.

(** X17. A completed harvest unlocks the update check: it has written
    [initial_download_completed], so [run_update_check] goes on to
    [check_for_updates], provided the timestamps written are not the
    empty string. *)
Theorem completed_harvest_unlocks_check (fuel : nat) (env : harvest_env)
    (resume : bool) (d : store) (r : run) (senv : sync_env) (force : bool) :
  download_all_awards fuel env resume d = Some r →
  success r = true →
  (∀ i, isoformat (clock env i) ≠ "") →
  run_update_check senv force (final_db r)
  = Some (check_for_updates senv force (final_db r)).
Proof.
  unfold download_all_awards, run_from. intros E Hs Hiso.
  destruct (harvest_loop fuel env _) as [[st'|st']|]; simplify_eq.
  unfold run_update_check.
  assert (Hm : get_metadata None (final_db (finish env st'))
                 "initial_download_completed"
               = Some (isoformat (clock env (batches st')))).
  { unfold finish. cbn [set_metadata execute mbind result_bind].
    destruct (interrupted env (batches st'));
      cbn [mbind result_bind final_db]; unfold get_metadata;
      cbn [execute scraper_metadata];
      by rewrite !lookup_insert_ne, lookup_insert_eq by done. }
  rewrite Hm. specialize (Hiso (batches st')).
  apply String.eqb_neq in Hiso. by rewrite Hiso.
Qed.

End Gate.

Lemma successful_check_arms_gate_witness :
  let s := check_for_updates (H := Sample.runtime) (Sample.fetching []) true
             empty_store in
  check_for_updates (H := Sample.runtime)
    (Sample.fetching [Sample.sample_award]) false (sync_db s)
  = {| ok := true; sync_db := sync_db s; new_records_found := 0;
       events := [] |}.
Proof.
  intros s.
  destruct (successful_check_arms_gate (H := Sample.runtime)
              (Sample.fetching []) (Sample.fetching [Sample.sample_award])
              true empty_store) as [Harm _]; [reflexivity | reflexivity |].
  apply Harm; [reflexivity | discriminate | reflexivity | reflexivity].
Defined.

Lemma upserted_not_new_again_witness :
  identify_new_awards [Sample.sample_award]
    (get_existing_contracts (Sample.store_of 0 [Sample.sample_award]))
  = Ok [].
Proof.
  apply (upserted_not_new_again (H := Sample.runtime) 0 empty_store
           (Sample.store_of 0 [Sample.sample_award]) [Sample.sample_award] 1
           Sample.sample_award "TEST123").
  - reflexivity.
  - apply list_elem_of_here.
  - reflexivity.
Defined.

Lemma completed_harvest_unlocks_check_witness :
  let r := Sample.run_of 3 (Sample.quiet []) false empty_store in
  run_update_check (H := Sample.runtime) (Sample.fetching []) true (final_db r)
  = Some (check_for_updates (H := Sample.runtime) (Sample.fetching []) true
            (final_db r)).
Proof.
  intros r. subst r. unfold Sample.run_of.
  assert (Hs : is_Some (download_all_awards (H := Sample.runtime) 3
                          (Sample.quiet []) false empty_store))
    by (apply (bool_decide_unpack _); by vm_compute).
  destruct Hs as [r Hr]. rewrite Hr.
  apply (completed_harvest_unlocks_check (H := Sample.runtime) 3
           (Sample.quiet []) false empty_store r _ true Hr).
  - assert (Hb : from_option success false
                   (download_all_awards (H := Sample.runtime) 3
                      (Sample.quiet []) false empty_store) = true)
      by (by vm_compute).
    by rewrite Hr in Hb.
  - intros i. discriminate.
Defined.

(** ** The walk over recent pages *)

Section RecentWalk.

Variable http : nat -> attempt.
Variable threshold_str : string.

Lemma recent_loop_grows (awards acc r : list award) :
  recent_loop awards threshold_str acc = Ok r →
  ∃ l, r = acc ++ l
       ∧ Forall (fun a => ∃ s, a !! "proposal_award_date" = Some (VStr s)
                               ∧ String.leb threshold_str s = true) l
       ∧ (l = [] →
          Forall (fun v => ∃ s, v = VStr s
                                ∧ String.ltb s threshold_str = true)
                 (List.filter truthy (map date_of awards))).
Proof.
  revert acc. induction awards as [|a awards IH]; intros acc E;
    cbn [recent_loop] in E.
  - simplify_eq. exists []. rewrite app_nil_r. by repeat constructor.
  - cbn [map List.filter]. destruct (truthy (date_of a)) eqn:Et.
    + unfold ge_threshold in E. destruct (date_of a) as [| | | |s|] eqn:Ed;
        try done.
      assert (Ha : a !! "proposal_award_date" = Some (VStr s)).
      { unfold date_of in Ed. destruct (a !! "proposal_award_date") as [v|];
          simpl in Ed; [by rewrite Ed |].
        by simplify_eq. }
      destruct (String.leb threshold_str s) eqn:El.
      * destruct (IH _ E) as (l & -> & Hl & _).
        exists (a :: l). rewrite <- app_assoc. split; [done |].
        split; [constructor; eauto | done].
      * destruct (IH _ E) as (l & -> & Hl & Hnil).
        exists l. split; [done |]. split; [done |]. intros Hl0.
        constructor; [| by apply Hnil].
        exists s. split; [done |]. by rewrite string_ltb_leb, El.
    + by apply IH.
Qed.

Lemma max_loop_older (best : value) (items : list value) :
  Forall (fun v => ∃ s, v = VStr s ∧ String.ltb s threshold_str = true)
         (best :: items) →
  ∃ m, max_loop best items = Some (VStr m)
       ∧ String.ltb m threshold_str = true.
Proof.
  revert best. induction items as [|item items IH]; intros best HF.
  - apply Forall_cons in HF as [(s & -> & Hs) _]. by exists s.
  - apply Forall_cons in HF as [(b & -> & Hb) HF].
    pose proof HF as HF'. apply Forall_cons in HF' as [(i & -> & Hi) HF'].
    cbn [max_loop]. apply IH. destruct (String.ltb b i); [done |].
    constructor; eauto.
Qed.

(** X18. [fetch_recent_awards] returns records in the window only: each
    has a [proposal_award_date] that is a string not before the
    threshold. *)
Theorem recent_awards_in_window (a : award) :
  a ∈ fst (fetch_recent_awards http threshold_str) →
  ∃ s, a !! "proposal_award_date" = Some (VStr s)
       ∧ String.leb threshold_str s = true.
Proof.
  unfold fetch_recent_awards.
  assert (Hgen : ∀ fuel start acc,
            Forall (fun a => ∃ s, a !! "proposal_award_date" = Some (VStr s)
                                  ∧ String.leb threshold_str s = true) acc →
            Forall (fun a => ∃ s, a !! "proposal_award_date" = Some (VStr s)
                                  ∧ String.leb threshold_str s = true)
                   (fst (recent_walk fuel http threshold_str start acc))).
  { induction fuel as [|fuel IH]; intros start acc Hacc; [done |].
    cbn [recent_walk].
    destruct (recent_page (http start)) as [[|a0 awards]|]; [done | | done].
    destruct (recent_loop (a0 :: awards) threshold_str []) as [recent|] eqn:Er;
      [| done].
    apply recent_loop_grows in Er as (l & -> & Hl & _). simpl in *.
    assert (Hall : Forall (fun a => ∃ s, a !! "proposal_award_date"
                                         = Some (VStr s)
                                     ∧ String.leb threshold_str s = true)
                          (acc ++ l)) by (by apply Forall_app).
    assert (Hgo : Forall (fun a => ∃ s, a !! "proposal_award_date"
                                        = Some (VStr s)
                                    ∧ String.leb threshold_str s = true)
              (fst (if (SAFETY_LIMIT <=? start + S (length awards))%nat
                    then (acc ++ l, [start])
                    else let '(r, offsets) :=
                           recent_walk fuel http threshold_str
                             (start + S (length awards)) (acc ++ l) in
                         (r, start :: offsets)))).
    { destruct (SAFETY_LIMIT <=? _)%nat; [done |].
      specialize (IH (start + S (length awards))%nat (acc ++ l) Hall).
      by destruct (recent_walk fuel http threshold_str _ _). }
    destruct l; [| exact Hgo].
    destruct (latest_in_batch (a0 :: awards)) as [latest|]; [| done].
    destruct (older_than latest threshold_str) as [[|]|]; [done | | done].
    exact Hgo. }
  intros Ha. specialize (Hgen SAFETY_LIMIT 0%nat [] (Forall_nil_2 _)).
  by apply (proj1 (Forall_forall _ _) Hgen).
Qed.

(** X19. The walk ends at the first page that holds no record in the
    window: it returns what it has gathered and requests no further page,
    whatever the dates on the page are. *)
Theorem walk_stops_without_recent (fuel start : nat) (awards acc : list award) :
  http start = Responded (BodyList awards) →
  awards ≠ [] →
  recent_loop awards threshold_str [] = Ok [] →
  recent_walk (S fuel) http threshold_str start acc = (acc, [start]).
Proof.
  intros Hh Hne Hr. cbn [recent_walk]. rewrite Hh. cbn [recent_page].
  destruct awards as [|a0 awards]; [done |]. rewrite Hr, app_nil_r.
  apply recent_loop_grows in Hr as (l & Hl & _ & Hnil).
  simpl in Hl. subst l. specialize (Hnil eq_refl).
  unfold latest_in_batch.
  destruct (List.filter truthy (map date_of (a0 :: awards))) as [|v vs];
    [done |].
  destruct (max_loop_older v vs Hnil) as (m & -> & Hm).
  cbn [older_than]. by rewrite Hm.
Qed.

Lemma walk_offsets_below (fuel start : nat) (acc : list award) :
  (start < SAFETY_LIMIT)%nat →
  Forall (fun o => (start <= o < SAFETY_LIMIT)%nat)
         (snd (recent_walk fuel http threshold_str start acc))
  ∧ StronglySorted lt (snd (recent_walk fuel http threshold_str start acc)).
Proof.
  revert start acc. induction fuel as [|fuel IH]; intros start acc Hs.
  { split; constructor. }
  assert (Hstop : ∀ g : list award,
            Forall (fun o => (start <= o < SAFETY_LIMIT)%nat) (snd (g, [start]))
            ∧ StronglySorted lt (snd (g, [start]))).
  { intros g. cbn [snd]. split.
    - apply Forall_cons. split; [lia | apply Forall_nil_2].
    - apply SSorted_cons; [apply SSorted_nil | apply Forall_nil_2]. }
  cbn [recent_walk].
  destruct (recent_page (http start)) as [[|a0 awards]|]; [apply Hstop | | apply Hstop].
  destruct (recent_loop (a0 :: awards) threshold_str []) as [recent|];
    [| apply Hstop].
  assert (Hgo : ∀ g,
     Forall (fun o => (start <= o < SAFETY_LIMIT)%nat)
       (snd (if (SAFETY_LIMIT <=? start + length (a0 :: awards))%nat
             then (g, [start])
             else let '(r, offsets) :=
                    recent_walk fuel http threshold_str
                      (start + length (a0 :: awards)) g in
                  (r, start :: offsets)))
     ∧ StronglySorted lt
       (snd (if (SAFETY_LIMIT <=? start + length (a0 :: awards))%nat
             then (g, [start])
             else let '(r, offsets) :=
                    recent_walk fuel http threshold_str
                      (start + length (a0 :: awards)) g in
                  (r, start :: offsets)))).
  { intros g. destruct (SAFETY_LIMIT <=? _)%nat eqn:El; [apply Hstop |].
    apply Nat.leb_gt in El.
    destruct (IH (start + length (a0 :: awards))%nat g El) as [Hb Hso].
    destruct (recent_walk fuel http threshold_str _ g) as [r offsets].
    cbn [snd] in *. cbn [length] in *. split.
    - constructor; [lia |]. eapply Forall_impl; [exact Hb |].
      intros o Ho. simpl in Ho. lia.
    - constructor; [done |]. eapply Forall_impl; [exact Hb |].
      intros o Ho. simpl in Ho. lia. }
  destruct recent; [| apply Hgo].
  destruct (latest_in_batch (a0 :: awards)) as [latest|]; [| apply Hstop].
  destruct (older_than latest threshold_str) as [[|]|];
    [apply Hstop | apply Hgo | apply Hstop].
Qed.

Lemma walk_fuel_enough (fuel1 fuel2 start : nat) (acc : list award) :
  (SAFETY_LIMIT - start <= fuel1)%nat → (SAFETY_LIMIT - start <= fuel2)%nat →
  (start < SAFETY_LIMIT)%nat →
  recent_walk fuel1 http threshold_str start acc
  = recent_walk fuel2 http threshold_str start acc.
Proof.
  revert fuel2 start acc.
  induction fuel1 as [|fuel1 IH]; intros fuel2 start acc H1 H2 Hs; [lia |].
  destruct fuel2 as [|fuel2]; [lia |]. cbn [recent_walk].
  destruct (recent_page (http start)) as [[|a0 awards]|]; [done | | done].
  destruct (recent_loop (a0 :: awards) threshold_str []) as [recent|];
    [| done].
  assert (Hgo : ∀ g,
     (if (SAFETY_LIMIT <=? start + length (a0 :: awards))%nat
      then (g, [start])
      else let '(r, offsets) :=
             recent_walk fuel1 http threshold_str
               (start + length (a0 :: awards)) g in
           (r, start :: offsets))
     = (if (SAFETY_LIMIT <=? start + length (a0 :: awards))%nat
        then (g, [start])
        else let '(r, offsets) :=
               recent_walk fuel2 http threshold_str
                 (start + length (a0 :: awards)) g in
             (r, start :: offsets))).
  { intros g. destruct (SAFETY_LIMIT <=? _)%nat eqn:El; [done |].
    apply Nat.leb_gt in El. cbn [length] in *.
    by rewrite (IH fuel2 (start + S (length awards))%nat g) by lia. }
  destruct recent; [| apply Hgo].
  destruct (latest_in_batch (a0 :: awards)) as [latest|]; [| done].
  destruct (older_than latest threshold_str) as [[|]|]; [done | apply Hgo | done].
Qed.

(** X20. The walk stays under the safety limit and always ends: every
    page is requested at an offset below 10000, at strictly increasing
    offsets, and more turns than [SAFETY_LIMIT] would change nothing. *)
Theorem recent_walk_bounded :
  Forall (fun o => (o < 10000)%nat) (snd (fetch_recent_awards http threshold_str))
  ∧ StronglySorted lt (snd (fetch_recent_awards http threshold_str))
  ∧ ∀ fuel, (SAFETY_LIMIT <= fuel)%nat →
            recent_walk fuel http threshold_str 0 []
            = fetch_recent_awards http threshold_str.
Proof.
  assert (Hpos : (0 < SAFETY_LIMIT)%nat)
    by (unfold SAFETY_LIMIT, BATCH_SIZE; lia).
  assert (Hlim : SAFETY_LIMIT = 10000%nat) by (by vm_compute).
  unfold fetch_recent_awards.
  destruct (walk_offsets_below SAFETY_LIMIT 0 [] Hpos) as [Hb Hs].
  split; [| split; [done |]].
  - eapply Forall_impl; [exact Hb |]. intros o Ho. simpl in Ho.
    rewrite <- Hlim. lia.
  - intros fuel Hf. apply walk_fuel_enough; lia.
Qed.

End RecentWalk.

Lemma walk_stops_without_recent_witness :
  let old := <["proposal_award_date" := VStr "2020-01-01"]> Sample.sample_award in
  recent_walk 1 (fun _ => Responded (BodyList [old])) "2025-06-01" 0 []
  = ([], [0%nat]).
Proof.
  intros old.
  apply (walk_stops_without_recent (fun _ => Responded (BodyList [old]))
           "2025-06-01" 0 0 [old] []).
  - reflexivity.
  - discriminate.
  - reflexivity.
Defined.

Lemma recent_awards_in_window_witness :
  ∃ s, Sample.sample_award !! "proposal_award_date" = Some (VStr s)
       ∧ String.leb "2024-06-01" s = true.
Proof.
  apply (recent_awards_in_window
           (fun o => Responded (BodyList (if (o =? 0)%nat
                                          then [Sample.sample_award]
                                          else [])))
           "2024-06-01" Sample.sample_award).
  apply (bool_decide_unpack _). by vm_compute.
Defined.

(** ** A check while the API cannot be reached *)

Lemma first_request_fails (http : nat -> attempt) (threshold_str : string)
    (e : exn) :
  http 0%nat = Failed e →
  fetch_recent_awards http threshold_str = ([], [0%nat]).
Proof.
  intros Hf. unfold fetch_recent_awards.
  assert (Hn : ∃ n, SAFETY_LIMIT = S n) by (exists 9999%nat; by vm_compute).
  destruct Hn as [n Hn]. rewrite Hn. cbn [recent_walk]. by rewrite Hf.
Qed.

(** X21. An update check made while the API cannot be reached is booked
    as a completed check: when the first request of [fetch_recent_awards]
    fails, a check that goes past the gate makes no further request,
    returns success with no new record and leaves the award rows alone;
    when its write of [last_update_check] goes through it records the
    time of the check, as it does when there is nothing new, and when
    that write fails too the store is left as it was. *)
Theorem outage_booked_as_check `{Runtime} (http : nat -> attempt)
    (threshold_str : string) (e : exn) (env : sync_env) (force : bool)
    (d : store) :
  http 0%nat = Failed e →
  recent_awards env = fst (fetch_recent_awards http threshold_str) →
  force || should_check_for_updates (gate_time env) d = true →
  snd (fetch_recent_awards http threshold_str) = [0%nat]
  ∧ ok (check_for_updates env force d) = true
  ∧ new_records_found (check_for_updates env force d) = 0%nat
  ∧ events (check_for_updates env force d) = [FetchRecent UPDATE_LOOKBACK_DAYS]
  ∧ awards (sync_db (check_for_updates env force d)) = awards d
  ∧ (metadata_fault env "last_update_check" = None →
     get_metadata None (sync_db (check_for_updates env force d))
       "last_update_check"
     = Some (isoformat (write_time env)))
  ∧ (∀ x, metadata_fault env "last_update_check" = Some x →
     sync_db (check_for_updates env force d) = d).
Proof.
  intros Hf Hr Hg. rewrite (first_request_fails http threshold_str e Hf) in *.
  cbn [fst snd] in *. split; [done |].
  unfold check_for_updates.
  assert (Hgate : negb force && negb (should_check_for_updates (gate_time env) d)
                  = false).
  { destruct force; [done |]. cbn [orb] in Hg. by rewrite Hg. }
  rewrite Hgate, Hr. cbn [ok new_records_found events sync_db].
  split; [done |]. split; [done |]. split; [done |].
  split; [apply update_metadata_awards |]. split.
  - apply update_metadata_last_check.
  - intros x Hx. by apply (update_metadata_dropped _ _ _ _ x).
Qed.

Lemma outage_booked_as_check_witness :
  ok (check_for_updates (H := Sample.runtime) (Sample.fetching []) true
        empty_store) = true.
Proof.
  apply (outage_booked_as_check (H := Sample.runtime)
           (fun _ => Failed RequestException) "2025-01-01" RequestException
           (Sample.fetching []) true empty_store).
  - reflexivity.
  - reflexivity.
  - reflexivity.
Defined.
